(** * PresetRenameHistory: the rename log of printer and filament presets

    A shallow embedding of [src/libslic3r/PresetRenameHistory.{hpp,cpp}]
    and the properties of its append, persistence and resolution
    operations.

    The object is modelled by explicit state passing: a state holds the
    vector [m_entries] and the content of the one file the class reads and
    writes (the file named by [m_path]).  The two inputs the code takes from
    its environment, the wall clock and the fate of a write, are explicit
    arguments. *)

From Stdlib Require Import ZArith Ascii.
From stdpp Require Import gmap strings list.

Set Warnings "-register-all,-clear-no-such-hyp".

Local Open Scope string_scope.
Local Open Scope Z_scope.
Local Open Scope list_scope.

(** ** Data model *)

(** Modelled from the spec: the declaration of [Preset::Type] lives in
    [Preset.hpp], which is not among the sources.  The code names three
    enumerators, [TYPE_INVALID], [TYPE_PRINTER] and [TYPE_FILAMENT]; every
    other enumerator of the enum is treated alike by it (the [default:]
    branch of [type_to_string], no branch of [type_from_string]) and is
    represented by [TYPE_OTHER]. *)
Inductive Preset_Type : Set :=
| TYPE_INVALID
| TYPE_PRINTER
| TYPE_FILAMENT
| TYPE_OTHER (tag : nat).

#[global] Instance Preset_Type_eq_dec : EqDecision Preset_Type.
Proof. solve_decision. Defined.

(** [struct RenameHistoryEntry].  [std::string] is a sequence of bytes, as
    [string] is; [long long] is a 64-bit signed integer, kept as a [Z]
    with the wrap-around of conversions written out ([to_long_long]). *)
Record RenameHistoryEntry : Set := {
  type      : Preset_Type;
  old_name  : string;
  new_name  : string;
  timestamp : Z
}.

#[global] Instance RenameHistoryEntry_eq_dec : EqDecision RenameHistoryEntry.
Proof. solve_decision. Defined.

Definition long_long_range (z : Z) : Prop := - 2 ^ 63 <= z < 2 ^ 63.

(** [static_cast<long long>] of an integer. *)
Definition to_long_long (z : Z) : Z := (z + 2 ^ 63) mod 2 ^ 64 - 2 ^ 63.

(** [std::string::empty]. *)
Definition empty (s : string) : bool := bool_decide (s = "").

(** ** The JSON values of the persisted document

    The values [nlohmann::json] holds.  [Jnumber_integer n] is a
    [number_integer] or a [number_unsigned]: in a document the library has
    parsed, - 2 ^ 63 <= n < 2 ^ 64 (a longer integer literal is parsed as a
    floating-point number).  [Jnumber_float] is a [number_float]; the code
    reads nothing of one but its conversion to [long long], so the value
    is kept as the integer [static_cast<long long>] makes of it, its
    truncation when that is a [long long].  An object is kept as the list
    of its members, keys distinct; the code looks members up by key, and
    the order of the list is the order in which a loop over the object
    would visit them. *)
Inductive json : Set :=
| Jnull
| Jboolean (b : bool)
| Jnumber_integer (n : Z)
| Jnumber_float (as_long_long : Z)
| Jstring (s : string)
| Jarray (items : list json)
| Jobject (members : list (string * json)).

Definition is_object (j : json) : bool :=
  match j with Jobject _ => true | _ => false end.

(** [std::map::find] on the members of an object. *)
Fixpoint member (key : string) (members : list (string * json)) : option json :=
  match members with
  | [] => None
  | (k, v) :: rest => if bool_decide (k = key) then Some v else member key rest
  end.

(** [basic_json::contains(key)]: false on anything but an object. *)
Definition contains (j : json) (key : string) : bool :=
  match j with
  | Jobject members => bool_decide (is_Some (member key members))
  | _ => false
  end.

(** [basic_json::operator[](key)], used by the code on an object that
    contains the key. *)
Definition at_key (j : json) (key : string) : json :=
  match j with
  | Jobject members => default Jnull (member key members)
  | _ => Jnull
  end.

(** The elements a range-[for] over a value visits: the elements of an
    array, the member values of an object, nothing for [null], the value
    itself for any other value. *)
Definition elements_of (j : json) : list json :=
  match j with
  | Jnull => []
  | Jarray items => items
  | Jobject members => members.*2
  | _ => [j]
  end.

(** [item.value(key, default)] at type [std::string]: the default when the
    key is missing, the string when the member is one; any other member
    raises [type_error], rendered as [None]. *)
Definition value_string (item : json) (key : string) (dflt : string) : option string :=
  match item with
  | Jobject members =>
      match member key members with
      | None => Some dflt
      | Some (Jstring s) => Some s
      | Some _ => None
      end
  | _ => None
  end.

(** [item.value(key, 0ll)]: as above at type [long long].  The conversion
    is the library's for an arithmetic type that is not its own integer
    type, which is the case of [long long] where [std::int64_t] is [long]
    (LP64 Linux): an integer or a floating-point number is cast, a boolean
    gives 0 or 1, any other value raises [type_error].  (Where
    [std::int64_t] is [long long] itself a boolean raises too.) *)
Definition value_long_long (item : json) (key : string) (dflt : Z) : option Z :=
  match item with
  | Jobject members =>
      match member key members with
      | None => Some dflt
      | Some (Jnumber_integer n) => Some (to_long_long n)
      | Some (Jnumber_float x) => Some (to_long_long x)
      | Some (Jboolean b) => Some (if b then 1 else 0)
      | Some _ => None
      end
  | _ => None
  end.

(** ** The object and its file *)

(** What [m_path] names on disk: no file, a file that cannot be opened or
    parsed, or a JSON document. *)
Inductive file_content : Set :=
| FileAbsent
| FileUnreadable
| FileJson (doc : json).

Record PresetRenameHistory : Set := {
  m_entries : list RenameHistoryEntry;
  m_file    : file_content
}.

(** ** Type taxonomy *)

Definition type_to_string (ty : Preset_Type) : string :=
  match ty with
  | TYPE_PRINTER  => "printer"
  | TYPE_FILAMENT => "filament"
  | _             => "unknown"
  end.

Definition type_from_string (s : string) : Preset_Type :=
  if bool_decide (s = "printer") then TYPE_PRINTER
  else if bool_decide (s = "filament") then TYPE_FILAMENT
  else TYPE_INVALID.

(** ** load *)

(** One turn of the loop of [load] on [item].  The outer [option] is the
    exception channel ([None]: a [value] call raised); the inner one tells
    whether the turn reached [emplace_back] ([Some entry]) or left through
    [continue] ([None]). *)
Definition load_item (item : json) : option (option RenameHistoryEntry) :=
  if negb (is_object item) then Some None
  else
    ty ← value_string item "type" "";
    old ← value_string item "old" "";
    new ← value_string item "new" "";
    ts ← value_long_long item "timestamp" 0;
    let entry := {| type := type_from_string ty; old_name := old;
                    new_name := new; timestamp := ts |} in
    if bool_decide (type entry = TYPE_INVALID) || empty (old_name entry)
       || empty (new_name entry)
    then Some None
    else Some (Some entry).

(** The loop of [load] over the remaining items, [entries] being
    [m_entries] so far.  An exception leaves the loop for the
    [catch (...)], which keeps what was loaded before it. *)
Fixpoint load_items (items : list json) (entries : list RenameHistoryEntry)
  : list RenameHistoryEntry :=
  match items with
  | [] => entries
  | item :: rest =>
      match load_item item with
      | None => entries
      | Some None => load_items rest entries
      | Some (Some entry) => load_items rest (entries ++ [entry])
      end
  end.

(** [m_path] is set to a non-empty path by the constructor before [load]
    runs, so the early return on an empty path is never taken.  The calls
    to [create_directories] and [exists] stand outside the [try]; they are
    taken to return (when one raises, so does the constructor, and there
    is no history to speak of).  A stream that is not [good] and a text
    that does not parse are both [FileUnreadable]. *)
Definition load (h : PresetRenameHistory) : PresetRenameHistory :=
  match m_file h with
  | FileAbsent | FileUnreadable => {| m_entries := []; m_file := m_file h |}
  | FileJson json_data =>
      let entries := if contains json_data "entries"
                     then at_key json_data "entries" else Jarray [] in
      {| m_entries := load_items (elements_of entries) [];
         m_file := m_file h |}
  end.

(** The constructor, run once by [instance()]: [load] on whatever the disk
    holds. *)
Definition instance (disk : file_content) : PresetRenameHistory :=
  load {| m_entries := []; m_file := disk |}.

(** ** save *)

(** How the [try] block of [save] ends: the document is written; nothing
    is written (the directory cannot be created or the stream does not
    open); or the stream has truncated the file and [dump] then raises, as
    it does on a name that is not UTF-8. *)
Inductive write_outcome : Set := Written | NotWritten | Truncated.

Definition entry_to_json (entry : RenameHistoryEntry) : json :=
  Jobject [("type", Jstring (type_to_string (type entry)));
           ("old", Jstring (old_name entry));
           ("new", Jstring (new_name entry));
           ("timestamp", Jnumber_integer (timestamp entry))].

Definition save (w : write_outcome) (h : PresetRenameHistory) : PresetRenameHistory :=
  let json_data := Jobject [("entries", Jarray (map entry_to_json (m_entries h)))] in
  match w with
  | Written    => {| m_entries := m_entries h; m_file := FileJson json_data |}
  | NotWritten => h
  | Truncated  => {| m_entries := m_entries h; m_file := FileUnreadable |}
  end.

(** ** add_entry *)

(** [now] is the clock reading in seconds, [w] the fate of the write. *)
Definition add_entry (now : Z) (w : write_outcome)
    (ty : Preset_Type) (old new : string) (h : PresetRenameHistory)
  : PresetRenameHistory :=
  if bool_decide (ty = TYPE_INVALID) || empty old || empty new
     || bool_decide (old = new)
  then h
  else
    let entry := {| type := ty; old_name := old; new_name := new;
                    timestamp := to_long_long now |} in
    save w {| m_entries := m_entries h ++ [entry]; m_file := m_file h |}.

(** ** resolve *)

Definition kMaxResolveDepth : nat := 32.

(** The predicate of the [find_if] in [resolve]. *)
Definition renames (ty : Preset_Type) (current : string)
    (entry : RenameHistoryEntry) : bool :=
  bool_decide (type entry = ty) && bool_decide (old_name entry = current).

(** [std::find_if(m_entries.rbegin(), m_entries.rend(), ...)]; [None] is
    [rend()]. *)
Definition find_latest (entries : list RenameHistoryEntry)
    (ty : Preset_Type) (current : string) : option RenameHistoryEntry :=
  List.find (renames ty current) (rev entries).

(** The [for] loop of [resolve] with [n] turns left, returning the final
    [current] and [changed]. *)
Fixpoint resolve_loop (n : nat) (entries : list RenameHistoryEntry)
    (ty : Preset_Type) (current : string) (changed : bool)
    (visited : gset string) : string * bool :=
  match n with
  | O => (current, changed)
  | S n' =>
      match find_latest entries ty current with
      | None => (current, changed)
      | Some it =>
          let current := new_name it in
          if bool_decide (current ∈ visited) then (current, changed)
          else resolve_loop n' entries ty current true ({[current]} ∪ visited)
      end
  end.

Definition resolve (h : PresetRenameHistory) (ty : Preset_Type) (name : string)
  : option string :=
  if bool_decide (ty = TYPE_INVALID) || empty name then None
  else
    let '(current, changed) :=
      resolve_loop kMaxResolveDepth (m_entries h) ty name false {[name]} in
    if changed && negb (bool_decide (current = name)) then Some current
    else None.

(** [entries()]. *)
Definition entries (h : PresetRenameHistory) : list RenameHistoryEntry :=
  m_entries h.

(** ** The states the program can be in

    [load] and [save] are private: a history comes into being through the
    constructor and changes through [add_entry] only. *)
Inductive reachable : PresetRenameHistory → Prop :=
| reachable_instance disk :
    reachable (instance disk)
| reachable_add_entry now w ty old new h :
    reachable h → reachable (add_entry now w ty old new h).

(** The invariant the data model asks of a record. *)
Definition record_invariant (entry : RenameHistoryEntry) : Prop :=
  type entry ≠ TYPE_INVALID ∧ old_name entry ≠ "" ∧ new_name entry ≠ ""
  ∧ old_name entry ≠ new_name entry.

(** What the guard of [load] asks of a record. *)
Definition load_guard (entry : RenameHistoryEntry) : Prop :=
  type entry ≠ TYPE_INVALID ∧ old_name entry ≠ "" ∧ new_name entry ≠ "".

(** The arguments [add_entry] accepts. *)
Definition valid_rename (ty : Preset_Type) (old new : string) : Prop :=
  ty ≠ TYPE_INVALID ∧ old ≠ "" ∧ new ≠ "" ∧ old ≠ new.

#[global] Instance valid_rename_dec ty old new : Decision (valid_rename ty old new).
Proof. unfold valid_rename. apply _. Defined.

(** [k] successive lookups of the latest rename, starting at [name]. *)
Fixpoint hops (entries : list RenameHistoryEntry) (ty : Preset_Type)
    (k : nat) (name : string) : option string :=
  match k with
  | O => Some name
  | S k' =>
      match find_latest entries ty name with
      | None => None
      | Some it => hops entries ty k' (new_name it)
      end
  end.

(** [names] is a chain of renames of the history: each name is renamed to
    the next one by the latest record for it. *)
Fixpoint is_chain (entries : list RenameHistoryEntry) (ty : Preset_Type)
    (names : list string) : Prop :=
  match names with
  | [] => True
  | a :: rest =>
      match rest with
      | [] => True
      | b :: _ => hops entries ty 1 a = Some b ∧ is_chain entries ty rest
      end
  end.

(** A history built by recording the renames of [names] one after the
    other: first to second, second to third, and so on. *)
Fixpoint add_chain (ty : Preset_Type) (names : list string)
    (h : PresetRenameHistory) : PresetRenameHistory :=
  match names with
  | [] => h
  | a :: rest =>
      match rest with
      | [] => h
      | b :: _ => add_chain ty rest (add_entry 0 Written ty a b h)
      end
  end.

(** Forty distinct names: "p", "xp", "xxp", ... *)
Fixpoint chain_name (i : nat) : string :=
  match i with
  | O => "p"
  | S i' => String "x"%char (chain_name i')
  end.

Definition forty_names : list string := chain_name <$> seq 0 40.

(** The records the persistence round trip is about: a printer or filament
    record with non-empty names (and a timestamp that is a [long long]). *)
Definition well_formed_record (entry : RenameHistoryEntry) : Prop :=
  (type entry = TYPE_PRINTER ∨ type entry = TYPE_FILAMENT)
  ∧ old_name entry ≠ "" ∧ new_name entry ≠ ""
  ∧ long_long_range (timestamp entry).

(** A persisted document whose one element renames "A" to "A". *)
Definition same_name_document : json :=
  Jobject [("entries",
            Jarray [Jobject [("type", Jstring "printer");
                             ("old", Jstring "A");
                             ("new", Jstring "A");
                             ("timestamp", Jnumber_integer 0)]])].

(** What holds of every record a history of the program stores. *)
Definition stored_record (entry : RenameHistoryEntry) : Prop :=
  load_guard entry ∧ long_long_range (timestamp entry).

(** The two types the persisted tokens can name. *)
Definition printer_or_filament (ty : Preset_Type) : Prop :=
  ty = TYPE_PRINTER ∨ ty = TYPE_FILAMENT.

#[global] Instance printer_or_filament_dec ty : Decision (printer_or_filament ty).
Proof. unfold printer_or_filament. apply _. Defined.

(** The document [save] builds from [m_entries]. *)
Definition document_of (records : list RenameHistoryEntry) : json :=
  Jobject [("entries", Jarray (map entry_to_json records))].

(** A member that [value] cannot convert to a string / to a [long long]. *)
Definition not_a_string (members : list (string * json)) (key : string) : Prop :=
  ∃ v, member key members = Some v ∧ ∀ s, v ≠ Jstring s.

Definition is_number_or_boolean (v : json) : bool :=
  match v with
  | Jboolean _ | Jnumber_integer _ | Jnumber_float _ => true
  | _ => false
  end.

Definition not_a_number (members : list (string * json)) (key : string) : Prop :=
  ∃ v, member key members = Some v ∧ is_number_or_boolean v = false.

(** The bytes that may follow the first byte [n] of a UTF-8 sequence, as
    ranges, one per byte; [None] for a byte that starts no sequence. *)
Definition utf8_continuation (n : nat) : option (list (nat * nat)) :=
  if (n <=? 127)%nat then Some []
  else if ((194 <=? n) && (n <=? 223))%nat then Some [(128, 191)]%nat
  else if (n =? 224)%nat then Some [(160, 191); (128, 191)]%nat
  else if (((225 <=? n) && (n <=? 236)) || (n =? 238) || (n =? 239))%nat
    then Some [(128, 191); (128, 191)]%nat
  else if (n =? 237)%nat then Some [(128, 159); (128, 191)]%nat
  else if (n =? 240)%nat then Some [(144, 191); (128, 191); (128, 191)]%nat
  else if ((241 <=? n) && (n <=? 243))%nat
    then Some [(128, 191); (128, 191); (128, 191)]%nat
  else if (n =? 244)%nat then Some [(128, 143); (128, 191); (128, 191)]%nat
  else None.

(** The check [dump] makes of a string with its default, strict, error
    handler: the bytes are well-formed UTF-8, none missing at the end.
    [pending] are the ranges of the bytes the current sequence still
    needs. *)
Fixpoint utf8_from (pending : list (nat * nat)) (s : string) : bool :=
  match s with
  | EmptyString => match pending with [] => true | _ :: _ => false end
  | String c s' =>
      let n := nat_of_ascii c in
      match pending with
      | (lo, hi) :: rest => (lo <=? n)%nat && (n <=? hi)%nat && utf8_from rest s'
      | [] =>
          match utf8_continuation n with
          | Some needed => utf8_from needed s'
          | None => false
          end
      end
  end.

Definition utf8 (s : string) : bool := utf8_from [] s.

(** [json_data.dump(2)] in [save] raises [type_error] when a name is not
    UTF-8 (the keys and the type tokens are ASCII). *)
Definition dump_raises (records : list RenameHistoryEntry) : bool :=
  negb (forallb (λ entry, utf8 (old_name entry) && utf8 (new_name entry))
          records).

(** How the [try] block of [save] ends on [h] when the file system does
    [io]: where directory and stream let the document through, [dump]
    still raises on a name that is not UTF-8, after the stream has
    truncated the file. *)
Definition ends (io : write_outcome) (h : PresetRenameHistory) : write_outcome :=
  match io with
  | Written => if dump_raises (m_entries h) then Truncated else Written
  | _ => io
  end.

(** A name that is not UTF-8: the single byte 255. *)
Definition not_utf8_name : string := String (ascii_of_nat 255) EmptyString.

(** Two records that record the same rename, whenever it was made. *)
Definition same_rename (e1 e2 : RenameHistoryEntry) : Prop :=
  type e1 = type e2 ∧ old_name e1 = old_name e2 ∧ new_name e1 = new_name e2.

(** A call of [add_entry] with what it reads from its environment. *)
Record add_entry_call : Set := {
  call_now  : Z;
  call_w    : write_outcome;
  call_type : Preset_Type;
  call_old  : string;
  call_new  : string
}.

(** A sequence of calls of [add_entry], in order. *)
Definition add_entries (calls : list add_entry_call) (h : PresetRenameHistory)
  : PresetRenameHistory :=
  foldl (λ h c, add_entry (call_now c) (call_w c) (call_type c)
                  (call_old c) (call_new c) h) h calls.

(** ** The dialog that offers the renamed presets of a project

    [src/slic3r/GUI/RenamedProfilesDialog.{hpp,cpp}].  Of the widgets only
    what [selection] reads is kept: each check box is the value it holds. *)
Module RenamedProfilesDialog.

Record RenameUpdateOption : Set := {
  type     : Preset_Type;
  old_name : string;
  new_name : string
}.

Record t : Set := {
  m_options    : list RenameUpdateOption;
  m_checkboxes : list bool
}.

(** The constructor: one check box per option, pushed in order, each set
    to true. *)
Definition create (options : list RenameUpdateOption) : t :=
  {| m_options := options;
     m_checkboxes := foldl (λ checkboxes _, checkboxes ++ [true]) [] options |}.

(** The user ticking or clearing the check box of row [idx]; there is no
    check box beyond the rows. *)
Definition set_checkbox (idx : nat) (value : bool) (d : t) : t :=
  {| m_options := m_options d;
     m_checkboxes := <[idx := value]> (m_checkboxes d) |}.

(** The loop of [selection] with [n] turns left, at index [idx]. *)
Fixpoint selection_loop (n idx : nat) (d : t)
    (selected : list RenameUpdateOption) : list RenameUpdateOption :=
  match n with
  | O => selected
  | S n' =>
      let selected :=
        match m_checkboxes d !! idx, m_options d !! idx with
        | Some true, Some option => selected ++ [option]
        | _, _ => selected
        end in
      selection_loop n' (S idx) d selected
  end.

Definition selection (d : t) : list RenameUpdateOption :=
  let count := Nat.min (length (m_options d)) (length (m_checkboxes d)) in
  selection_loop count 0 d [].

End RenamedProfilesDialog.

(** ** The dialog that asks for the new name of a preset

    [src/slic3r/GUI/RenamePresetDialog.{hpp,cpp}].  Of the widgets the
    state keeps the text of the input (in UTF-8, as [into_u8] hands it
    over), whether the OK button is enabled and the message set on the
    label.  The messages are kept as what they say, not as translated
    text. *)
Module RenamePresetDialog.

(** [boost::algorithm::trim_copy]: the characters the locale classifies
    as space are removed from the end, then from the beginning.  The
    classification [is_space] is the locale's. *)
Fixpoint trim_right (is_space : ascii → bool) (s : string) : string :=
  match s with
  | EmptyString => EmptyString
  | String c s' =>
      let rest := trim_right is_space s' in
      if is_space c && empty rest then EmptyString else String c rest
  end.

Fixpoint trim_left (is_space : ascii → bool) (s : string) : string :=
  match s with
  | EmptyString => EmptyString
  | String c s' => if is_space c then trim_left is_space s' else s
  end.

Definition trimmed (is_space : ascii → bool) (value : string) : string :=
  trim_left is_space (trim_right is_space value).

(** The classification of the classic locale. *)
Definition classic_space (c : ascii) : bool :=
  let n := nat_of_ascii c in
  bool_decide (n = 32%nat) || (bool_decide (9 ≤ n)%nat && bool_decide (n ≤ 13)%nat).

(** [front()] and [back()], called by the code on non-empty strings. *)
Definition front (s : string) : option ascii :=
  match s with
  | EmptyString => None
  | String c _ => Some c
  end.

Fixpoint back (s : string) : option ascii :=
  match s with
  | EmptyString => None
  | String c s' => match s' with EmptyString => Some c | _ => back s' end
  end.

Fixpoint char_in (c : ascii) (chars : string) : bool :=
  match chars with
  | EmptyString => false
  | String d chars' => bool_decide (c = d) || char_in c chars'
  end.

(** [s.find_first_of(chars)] from position [pos] of the whole string;
    [None] is [npos]. *)
Fixpoint find_first_of (s chars : string) (pos : nat) : option nat :=
  match s with
  | EmptyString => None
  | String c s' =>
      if char_in c chars then Some pos else find_first_of s' chars (S pos)
  end.

Fixpoint starts_with (sub s : string) : bool :=
  match sub with
  | EmptyString => true
  | String c sub' =>
      match s with
      | EmptyString => false
      | String d s' => bool_decide (c = d) && starts_with sub' s'
      end
  end.

(** [s.find(sub)] from position [pos] of the whole string. *)
Fixpoint find (s sub : string) (pos : nat) : option nat :=
  if starts_with sub s then Some pos
  else match s with
       | EmptyString => None
       | String _ s' => find s' sub (S pos)
       end.

(** The characters of [illegal]: the ten written out and the double
    quote. *)
Definition illegal : string :=
  String.append "<>[]:/\|?*" (String (ascii_of_nat 34) EmptyString).

Inductive message : Set :=
| NameEmpty
| EnterDifferentName
| StartsWithSpace
| EndsWithSpace
| IllegalCharacters
| IllegalSuffix (suffix : string)
| NameUnavailable
| PresetExists (name : string)
| SameAsAlias.

(** What [update_state] asks of the [PresetCollection], a class declared
    in [Preset.hpp], which is not among the sources: [find_preset name]
    is the name of the preset that [find_preset(name, false, true)]
    returns, [None] when it returns no preset. *)
Record PresetCollection : Type := {
  find_preset : string → option string;
  get_preset_name_by_alias : string → string
}.

Record t : Type := {
  m_collection    : option PresetCollection;
  m_type          : Preset_Type;
  m_original_name : string;
  m_new_name      : string;
  input_value     : string;
  ok_enabled      : bool;
  label           : option message
}.

(** The chain of tests on the name alone; [None] when none fires. *)
Definition name_error (suffix original new_name : string) : option message :=
  if empty new_name then Some NameEmpty
  else if bool_decide (new_name = original) then Some EnterDifferentName
  else if bool_decide (front new_name = Some " "%char) then Some StartsWithSpace
  else if bool_decide (back new_name = Some " "%char) then Some EndsWithSpace
  else if bool_decide (find_first_of new_name illegal 0 ≠ None)
    then Some IllegalCharacters
  else if negb (empty suffix) && bool_decide (find new_name suffix 0 ≠ None)
    then Some (IllegalSuffix suffix)
  else if bool_decide (new_name = "Default Setting")
          || bool_decide (new_name = "Default Filament")
          || bool_decide (new_name = "Default Printer")
    then Some NameUnavailable
  else None.

(** [update_state]; [suffix] is [PresetCollection::get_suffix_modified()].
    [error] being [None] is [valid] being true. *)
Definition update_state (is_space : ascii → bool) (suffix : string) (d : t) : t :=
  let new_name := trimmed is_space (input_value d) in
  let error := name_error suffix (m_original_name d) new_name in
  let error :=
    match error with
    | Some _ => error
    | None =>
        match m_collection d ≫= (λ c, find_preset c new_name) with
        | Some existing =>
            if bool_decide (existing = new_name)
            then Some (PresetExists new_name) else None
        | None => None
        end
    end in
  let error :=
    match error, m_collection d with
    | None, Some c =>
        if bool_decide (get_preset_name_by_alias c new_name ≠ new_name)
        then Some SameAsAlias else None
    | _, _ => error
    end in
  {| m_collection := m_collection d;
     m_type := m_type d;
     m_original_name := m_original_name d;
     m_new_name := new_name;
     input_value := input_value d;
     ok_enabled := bool_decide (error = None);
     label := error |}.

(** The constructor, for a preset of type [type] named [name]: the input
    shows the name (a name in UTF-8 comes back from the input as it went
    in) and [update_state] runs once. *)
Definition create (is_space : ascii → bool) (suffix : string)
    (collection : option PresetCollection) (type : Preset_Type)
    (name : string) : t :=
  update_state is_space suffix
    {| m_collection := collection; m_type := type;
       m_original_name := name; m_new_name := name;
       input_value := name; ok_enabled := true; label := None |}.

(** The handler of a change of the text. *)
Definition on_text (is_space : ascii → bool) (suffix : string)
    (text : string) (d : t) : t :=
  update_state is_space suffix
    {| m_collection := m_collection d; m_type := m_type d;
       m_original_name := m_original_name d; m_new_name := m_new_name d;
       input_value := text; ok_enabled := ok_enabled d; label := label d |}.

(** [new_name()]. *)
Definition new_name (d : t) : string := m_new_name d.

End RenamePresetDialog.

(** * Properties *)

(** ** Rewriting with the guards *)

Lemma empty_false s : s ≠ "" → empty s = false.
Proof. intros Hs. unfold empty. by rewrite bool_decide_eq_false_2. Qed.

Lemma empty_true s : s = "" → empty s = true.
Proof. intros ->. reflexivity. Qed.

(** Settle every [bool_decide] of the goal from the hypotheses. *)
Ltac settle_decisions :=
  repeat match goal with
  | |- context [bool_decide ?P] =>
      first [ rewrite (bool_decide_eq_true_2 P) by (first [done | congruence | set_solver])
            | rewrite (bool_decide_eq_false_2 P) by (first [done | congruence | set_solver]) ]
  | |- context [empty ?s] =>
      first [ rewrite (empty_false s) by (first [done | congruence])
            | rewrite (empty_true s) by (first [done | congruence]) ]
  end.

Lemma add_entry_valid now w ty old new h :
  valid_rename ty old new →
  add_entry now w ty old new h =
  save w {| m_entries := m_entries h ++
              [{| type := ty; old_name := old; new_name := new;
                  timestamp := to_long_long now |}];
            m_file := m_file h |}.
Proof.
  intros (Hty & Hold & Hnew & Hne). unfold add_entry.
  by settle_decisions.
Qed.

Lemma add_entry_invalid now w ty old new h :
  ¬ valid_rename ty old new → add_entry now w ty old new h = h.
Proof.
  intros Hinv. unfold add_entry, empty.
  repeat case_bool_decide; simpl; try reflexivity.
  exfalso. apply Hinv. by repeat split.
Qed.

Lemma m_entries_save w h : m_entries (save w h) = m_entries h.
Proof. by destruct w. Qed.

Lemma m_entries_add_entry_valid now w ty old new h :
  valid_rename ty old new →
  m_entries (add_entry now w ty old new h) =
  m_entries h ++ [{| type := ty; old_name := old; new_name := new;
                     timestamp := to_long_long now |}].
Proof.
  intros Hv. rewrite add_entry_valid by done. by rewrite m_entries_save.
Qed.

(** ** The lookup of one hop *)

Lemma find_latest_snoc entries entry ty current :
  find_latest (entries ++ [entry]) ty current =
  if renames ty current entry then Some entry
  else find_latest entries ty current.
Proof. unfold find_latest. by rewrite rev_unit. Qed.

Lemma find_latest_nil ty current : find_latest [] ty current = None.
Proof. reflexivity. Qed.

Lemma renames_true ty current entry :
  renames ty current entry = true ↔ type entry = ty ∧ old_name entry = current.
Proof.
  unfold renames. rewrite andb_true_iff, !bool_decide_eq_true. tauto.
Qed.

Lemma find_latest_Some entries ty current it :
  find_latest entries ty current = Some it ↔
  ∃ before after, entries = before ++ it :: after
    ∧ renames ty current it = true
    ∧ Forall (λ entry, renames ty current entry = false) after.
Proof.
  induction entries as [|entry entries IH] using rev_ind.
  - split; [done|]. intros (before & after & Heq & _).
    by destruct before.
  - rewrite find_latest_snoc.
    destruct (renames ty current entry) eqn:Hentry.
    + split.
      * intros [= <-]. exists entries, []. by repeat split.
      * intros (before & after & Heq & Hit & Hafter).
        destruct after as [|a after _] using rev_ind.
        { apply app_inj_tail in Heq as [_ ->]. done. }
        rewrite app_comm_cons, app_assoc in Heq.
        apply app_inj_tail in Heq as [_ <-].
        apply Forall_app in Hafter as [_ Ha].
        rewrite Forall_singleton in Ha. congruence.
    + rewrite IH. split.
      * intros (before & after & -> & Hit & Hafter).
        exists before, (after ++ [entry]). split; [by rewrite <- app_assoc|].
        split; [done|]. apply Forall_app. split; [done|]. by apply Forall_singleton.
      * intros (before & after & Heq & Hit & Hafter).
        destruct after as [|a after _] using rev_ind.
        { apply app_inj_tail in Heq as [_ ->]. congruence. }
        rewrite app_comm_cons, app_assoc in Heq.
        apply app_inj_tail in Heq as [-> <-].
        apply Forall_app in Hafter as [Hafter _].
        by exists before, after.
Qed.

Lemma find_latest_None entries ty current :
  find_latest entries ty current = None ↔
  Forall (λ entry, renames ty current entry = false) entries.
Proof.
  induction entries as [|entry entries IH] using rev_ind; [done|].
  rewrite find_latest_snoc, Forall_app, Forall_singleton.
  destruct (renames ty current entry).
  - split; [done|]. intros [_ Hentry]. congruence.
  - rewrite IH. split; [by intros Hall|by intros [Hall _]].
Qed.

Lemma find_latest_elem entries ty current it :
  find_latest entries ty current = Some it →
  it ∈ entries ∧ type it = ty ∧ old_name it = current.
Proof.
  intros (before & after & -> & Hit & _)%find_latest_Some.
  destruct (proj1 (renames_true _ _ _) Hit) as [Hty Hold].
  split; [set_solver|done].
Qed.

Lemma find_latest_other_type entries entry ty current :
  type entry ≠ ty →
  find_latest (entries ++ [entry]) ty current = find_latest entries ty current.
Proof.
  intros Hty. rewrite find_latest_snoc. unfold renames.
  by rewrite bool_decide_eq_false_2.
Qed.

Lemma find_latest_other_name entries entry ty current :
  old_name entry ≠ current →
  find_latest (entries ++ [entry]) ty current = find_latest entries ty current.
Proof.
  intros Hname. rewrite find_latest_snoc. unfold renames.
  rewrite (bool_decide_eq_false_2 (old_name entry = current)) by done.
  by rewrite andb_false_r.
Qed.

Lemma find_latest_last entries entry ty current :
  type entry = ty → old_name entry = current →
  find_latest (entries ++ [entry]) ty current = Some entry.
Proof.
  intros Hty Hname. rewrite find_latest_snoc.
  by rewrite (proj2 (renames_true _ _ _)).
Qed.

(** ** The loop, one turn at a time *)

Lemma resolve_loop_stop n entries ty current changed visited :
  find_latest entries ty current = None →
  resolve_loop n entries ty current changed visited = (current, changed).
Proof. intros Hnone. destruct n; simpl; [done|]. by rewrite Hnone. Qed.

Lemma resolve_loop_revisit n entries ty current changed visited it :
  find_latest entries ty current = Some it →
  new_name it ∈ visited →
  resolve_loop (S n) entries ty current changed visited = (new_name it, changed).
Proof. intros Hit Hin. simpl. rewrite Hit. by rewrite bool_decide_eq_true_2. Qed.

Lemma resolve_loop_hop n entries ty current changed visited it :
  find_latest entries ty current = Some it →
  new_name it ∉ visited →
  resolve_loop (S n) entries ty current changed visited =
  resolve_loop n entries ty (new_name it) true ({[new_name it]} ∪ visited).
Proof. intros Hit Hin. simpl. rewrite Hit. by rewrite bool_decide_eq_false_2. Qed.

(** The loop asks nothing of the history but its lookups. *)
Lemma resolve_loop_ext n entries1 entries2 ty current changed visited :
  (∀ name, find_latest entries1 ty name = find_latest entries2 ty name) →
  resolve_loop n entries1 ty current changed visited =
  resolve_loop n entries2 ty current changed visited.
Proof.
  intros Hsame. revert current changed visited.
  induction n as [|n IH]; intros current changed visited; simpl; [done|].
  rewrite Hsame. destruct (find_latest entries2 ty current); [|done].
  by rewrite IH.
Qed.

Lemma resolve_ext h1 h2 ty name :
  (∀ current, find_latest (m_entries h1) ty current
              = find_latest (m_entries h2) ty current) →
  resolve h1 ty name = resolve h2 ty name.
Proof.
  intros Hsame. unfold resolve.
  by rewrite (resolve_loop_ext _ _ _ _ _ _ _ Hsame).
Qed.

Lemma find_latest_filter_type entries ty current :
  find_latest (filter (λ entry, type entry = ty) entries) ty current =
  find_latest entries ty current.
Proof.
  induction entries as [|entry entries IH] using rev_ind; [done|].
  rewrite filter_app, filter_cons, filter_nil.
  destruct (decide (type entry = ty)) as [Hty|Hty].
  - by rewrite !find_latest_snoc, IH.
  - rewrite app_nil_r, IH. by rewrite find_latest_other_type.
Qed.

(** The result policy of [resolve], once the loop's outcome is known. *)
Lemma resolve_outcome h ty name current changed :
  ty ≠ TYPE_INVALID → name ≠ "" →
  resolve_loop kMaxResolveDepth (m_entries h) ty name false {[name]}
    = (current, changed) →
  resolve h ty name =
  if changed && negb (bool_decide (current = name)) then Some current else None.
Proof.
  intros Hty Hname Hloop. unfold resolve. settle_decisions. cbn [orb].
  by rewrite Hloop.
Qed.

Lemma elem_of_add_entry entry now w ty old new h :
  entry ∈ m_entries (add_entry now w ty old new h) →
  entry ∈ m_entries h
  ∨ (valid_rename ty old new ∧
     entry = {| type := ty; old_name := old; new_name := new;
                timestamp := to_long_long now |}).
Proof.
  destruct (decide (valid_rename ty old new)) as [Hv|Hv].
  - rewrite m_entries_add_entry_valid by done.
    rewrite elem_of_app, list_elem_of_singleton. intros [Hin| ->]; auto.
  - rewrite add_entry_invalid by done. auto.
Qed.

(** A rename to a name the history has not renamed away resolves to that
    name. *)
Lemma resolve_add_entry_fresh now w ty old new h :
  valid_rename ty old new →
  (∀ entry, entry ∈ m_entries h → type entry = ty → old_name entry ≠ new) →
  resolve (add_entry now w ty old new h) ty old = Some new.
Proof.
  intros Hv Hfresh. pose proof Hv as (Hty & Hold & Hnew & Hne).
  rewrite (resolve_outcome _ _ _ new true); [by settle_decisions|done|done|].
  rewrite m_entries_add_entry_valid by done.
  change kMaxResolveDepth with (S 31).
  erewrite resolve_loop_hop; [|by apply find_latest_last|set_solver].
  apply resolve_loop_stop. simpl.
  rewrite find_latest_other_name by done.
  apply find_latest_None, Forall_forall. intros entry Hin.
  unfold renames. destruct (decide (type entry = ty)) as [Hety|Hety].
  - rewrite (bool_decide_eq_false_2 (old_name entry = new)); [|by apply Hfresh].
    apply andb_false_r.
  - by rewrite bool_decide_eq_false_2.
Qed.

Lemma resolve_add_entry_other_type now w ty' old new h ty name :
  ty' ≠ ty →
  resolve (add_entry now w ty' old new h) ty name = resolve h ty name.
Proof.
  intros Hty. destruct (decide (valid_rename ty' old new)) as [Hv|Hv].
  - apply resolve_ext. intros current.
    rewrite m_entries_add_entry_valid by done.
    by apply find_latest_other_type.
  - by rewrite add_entry_invalid.
Qed.

Lemma resolve_rejected h ty name :
  ty = TYPE_INVALID ∨ name = "" → resolve h ty name = None.
Proof.
  intros Hbad. unfold resolve, empty.
  destruct Hbad as [-> | ->]; [done|].
  by rewrite (bool_decide_eq_true_2 ("" = "")), orb_true_r.
Qed.

Lemma resolve_no_entries h ty name :
  m_entries h = [] → resolve h ty name = None.
Proof.
  intros Hnil. unfold resolve. rewrite Hnil.
  by destruct (bool_decide (ty = TYPE_INVALID) || empty name).
Qed.

(** ** add_entry with arguments it rejects *)

(** C8: [add_entry] with the invalid type, an empty old name, an empty new
    name or equal names returns without a trace: the whole state, file
    included, is what it was, so no record is added and the record count is
    the same. *)
Theorem add_entry_rejected_is_noop now w ty old new h :
  ty = TYPE_INVALID ∨ old = "" ∨ new = "" ∨ old = new →
  add_entry now w ty old new h = h
  ∧ entries (add_entry now w ty old new h) = entries h
  ∧ length (entries (add_entry now w ty old new h)) = length (entries h).
Proof.
  intros Hbad.
  assert (add_entry now w ty old new h = h) as ->; [|done].
  apply add_entry_invalid. intros (Hty & Hold & Hnew & Hne).
  destruct Hbad as [?|[?|[?|?]]]; done.
Qed.

Lemma add_entry_rejected_is_noop_witness :
  let h := add_entry 7 Written TYPE_PRINTER "A" "B" (instance FileAbsent) in
  add_entry 8 Written TYPE_PRINTER "C" "C" h = h
  ∧ entries (add_entry 8 Written TYPE_PRINTER "C" "C" h) = entries h
  ∧ length (entries (add_entry 8 Written TYPE_PRINTER "C" "C" h))
    = length (entries h).
Proof.
  intros h. apply (add_entry_rejected_is_noop 8 Written TYPE_PRINTER "C" "C" h).
  right. right. right. reflexivity.
Defined.

(** ** resolve after add_entry *)

(** C2, as the code has it: after [add_entry (ty, old, new)] with valid
    arguments, [resolve (ty, old)] returns [new] provided no record of that
    type already in the history renames [new] away (as in an empty
    history); otherwise resolution goes on from [new]. *)
Theorem resolve_after_add_entry now w ty old new h :
  ty ≠ TYPE_INVALID → old ≠ "" → new ≠ "" → old ≠ new →
  (∀ entry, entry ∈ entries h → type entry = ty → old_name entry ≠ new) →
  resolve (add_entry now w ty old new h) ty old = Some new.
Proof.
  intros Hty Hold Hnew Hne Hfresh.
  by apply resolve_add_entry_fresh.
Qed.

Lemma resolve_after_add_entry_witness :
  resolve (add_entry 5 Written TYPE_FILAMENT "PLA" "PLA Basic"
             (add_entry 4 Written TYPE_FILAMENT "ABS" "PLA" (instance FileAbsent)))
          TYPE_FILAMENT "PLA" = Some "PLA Basic".
Proof.
  apply (resolve_after_add_entry 5 Written TYPE_FILAMENT "PLA" "PLA Basic");
    try done.
  intros entry Hin _. vm_compute in Hin.
  apply list_elem_of_singleton in Hin as ->. done.
Defined.

(** C2 as stated fails: with the record B -> C already in a history the
    program can hold, the valid call [add_entry (T, "A", "B")] is followed
    by [resolve (T, "A")] returning "C", not "B". *)
Lemma resolve_after_add_entry_not_new :
  let h := add_entry 1 Written TYPE_PRINTER "B" "C" (instance FileAbsent) in
  reachable h
  ∧ valid_rename TYPE_PRINTER "A" "B"
  ∧ resolve (add_entry 2 Written TYPE_PRINTER "A" "B" h) TYPE_PRINTER "A"
    = Some "C"
  ∧ resolve (add_entry 2 Written TYPE_PRINTER "A" "B" h) TYPE_PRINTER "A"
    ≠ Some "B".
Proof.
  intros h. split; [apply reachable_add_entry, reachable_instance|].
  split; [by repeat split|].
  split; [by vm_compute|]. by vm_compute.
Qed.

(** ** Chains and cycles *)

(** C3: from an empty history, A -> B then B -> A leaves nothing to report
    for A: the second hop comes back to the name resolution started from. *)
Theorem resolve_cycle_is_no_rename now1 w1 now2 w2 ty (A B : string) h :
  entries h = [] →
  A ≠ B →
  resolve (add_entry now2 w2 ty B A (add_entry now1 w1 ty A B h)) ty A = None.
Proof.
  intros Hnil Hne.
  destruct (decide (ty = TYPE_INVALID ∨ A = "")) as [Hbad|Hok];
    [by apply resolve_rejected|].
  assert (ty ≠ TYPE_INVALID ∧ A ≠ "") as [Hty HA]
    by (split; intros ?; apply Hok; auto).
  destruct (decide (B = "")) as [->|HB].
  - rewrite !add_entry_invalid by (by intros (_ & ? & ? & _)).
    by apply resolve_no_entries.
  - rewrite (resolve_outcome _ _ _ A true); [by settle_decisions|done|done|].
    rewrite !m_entries_add_entry_valid by (by repeat split).
    unfold entries in Hnil. rewrite Hnil.
    change kMaxResolveDepth with (S (S 30)).
    erewrite resolve_loop_hop;
      [|rewrite find_latest_other_name by done;
        by apply find_latest_last|set_solver].
    erewrite resolve_loop_revisit; [|by apply find_latest_last|set_solver].
    done.
Qed.

Lemma resolve_cycle_is_no_rename_witness :
  resolve (add_entry 2 Written TYPE_PRINTER "B" "A"
             (add_entry 1 Written TYPE_PRINTER "A" "B" (instance FileAbsent)))
          TYPE_PRINTER "A" = None.
Proof.
  apply (resolve_cycle_is_no_rename 1 Written 2 Written TYPE_PRINTER "A" "B");
    done.
Defined.

(** C4: from an empty history, A -> B then B -> C (a valid type, three
    distinct non-empty names) resolves A to C. *)
Theorem resolve_follows_chain now1 w1 now2 w2 ty (A B C : string) h :
  entries h = [] →
  ty ≠ TYPE_INVALID → A ≠ "" → B ≠ "" → C ≠ "" →
  A ≠ B → B ≠ C → A ≠ C →
  resolve (add_entry now2 w2 ty B C (add_entry now1 w1 ty A B h)) ty A = Some C.
Proof.
  intros Hnil Hty HA HB HC HAB HBC HAC.
  rewrite (resolve_outcome _ _ _ C true); [by settle_decisions|done|done|].
  rewrite !m_entries_add_entry_valid by (by repeat split).
  unfold entries in Hnil. rewrite Hnil.
  change kMaxResolveDepth with (S (S 30)).
  erewrite resolve_loop_hop;
    [|rewrite find_latest_other_name by done;
      by apply find_latest_last|set_solver].
  erewrite resolve_loop_hop; [|by apply find_latest_last|set_solver].
  apply resolve_loop_stop.
  rewrite !find_latest_other_name by done. reflexivity.
Qed.

Lemma resolve_follows_chain_witness :
  resolve (add_entry 2 Written TYPE_PRINTER "B" "C"
             (add_entry 1 Written TYPE_PRINTER "A" "B" (instance FileAbsent)))
          TYPE_PRINTER "A" = Some "C".
Proof.
  apply (resolve_follows_chain 1 Written 2 Written TYPE_PRINTER "A" "B" "C");
    done.
Defined.

(** ** Precedence of the latest record *)



(** ** Type isolation *)

(** C9: recording a printer rename changes no filament resolution, and the
    other way round; more generally [resolve] for a type sees only the
    records of that type. *)
Theorem resolve_type_isolation now w (A B name : string) ty h :
  resolve (add_entry now w TYPE_PRINTER A B h) TYPE_FILAMENT name
    = resolve h TYPE_FILAMENT name
  ∧ resolve (add_entry now w TYPE_FILAMENT A B h) TYPE_PRINTER name
    = resolve h TYPE_PRINTER name
  ∧ resolve h ty name
    = resolve {| m_entries := filter (λ entry, type entry = ty) (m_entries h);
                 m_file := m_file h |} ty name.
Proof.
  split; [|split].
  - by apply resolve_add_entry_other_type.
  - by apply resolve_add_entry_other_type.
  - apply resolve_ext. intros current. simpl.
    by rewrite find_latest_filter_type.
Qed.

(** ** What the loop returns *)

Lemma hops_last records ty k name s :
  hops records ty (S k) name = Some s →
  ∃ it, it ∈ records ∧ type it = ty ∧ new_name it = s.
Proof.
  revert name. induction k as [|k IH]; intros name; simpl.
  - destruct (find_latest records ty name) as [it|] eqn:Hit; [|done].
    intros [= <-]. apply find_latest_elem in Hit as (Hin & Hty & _). eauto.
  - destruct (find_latest records ty name) as [it|]; [|done]. apply IH.
Qed.

(** The loop with [n] turns left ends on a name [k ≤ n] hops away, and sets
    [changed] only after a hop. *)
Lemma resolve_loop_hops n records ty current changed visited :
  ∃ k, (k ≤ n)%nat
    ∧ hops records ty k current
      = Some (resolve_loop n records ty current changed visited).1
    ∧ ((resolve_loop n records ty current changed visited).2 = true →
       changed = true ∨ (1 ≤ k)%nat).
Proof.
  revert current changed visited.
  induction n as [|n IH]; intros current changed visited.
  - exists 0%nat. simpl. auto.
  - simpl. destruct (find_latest records ty current) as [it|] eqn:Hit.
    + case_bool_decide as Hseen.
      * exists 1%nat. simpl. rewrite Hit. split; [lia|]. auto.
      * destruct (IH (new_name it) true ({[new_name it]} ∪ visited))
          as (k & Hk & Hhops & _).
        exists (S k). simpl. rewrite Hit. split; [lia|]. split; [done|].
        intros _. right. lia.
    + exists 0%nat. simpl. split; [lia|]. auto.
Qed.

Lemma to_long_long_range z : long_long_range (to_long_long z).
Proof.
  unfold long_long_range, to_long_long.
  pose proof (Z.mod_pos_bound (z + 2 ^ 63) (2 ^ 64)). lia.
Qed.

Lemma to_long_long_id z : long_long_range z → to_long_long z = z.
Proof.
  unfold long_long_range, to_long_long. intros Hz.
  rewrite Z.mod_small; lia.
Qed.

(** ** The records a history stores *)

Lemma value_long_long_range item key ts :
  value_long_long item key 0 = Some ts → long_long_range ts.
Proof.
  unfold value_long_long. destruct item as [| | | | | |members]; try done.
  destruct (member key members) as [[|b|n|x| | |]|]; try done;
    intros [= <-]; try apply to_long_long_range.
  - unfold long_long_range. destruct b; simpl; lia.
  - unfold long_long_range. simpl. lia.
Qed.

Lemma load_item_stored item entry :
  load_item item = Some (Some entry) → stored_record entry.
Proof.
  unfold load_item. destruct (is_object item); simpl; [|done].
  destruct (value_string item "type" "") as [ty|]; simpl; [|done].
  destruct (value_string item "old" "") as [old|]; simpl; [|done].
  destruct (value_string item "new" "") as [new|]; simpl; [|done].
  destruct (value_long_long item "timestamp" 0) as [ts|] eqn:Hts; simpl; [|done].
  unfold empty. repeat case_bool_decide; simpl; try done.
  intros [= <-]. split; [by repeat split|]. simpl.
  by eapply value_long_long_range.
Qed.

Lemma load_items_stored items records :
  Forall stored_record records → Forall stored_record (load_items items records).
Proof.
  revert records. induction items as [|item items IH]; intros records Hall;
    simpl; [done|].
  destruct (load_item item) as [[entry|]|] eqn:Hitem; [|by apply IH|done].
  apply IH, Forall_app. split; [done|].
  apply Forall_singleton. by eapply load_item_stored.
Qed.

Lemma load_stored h : Forall stored_record (m_entries (load h)).
Proof.
  unfold load. destruct (m_file h); simpl; [done|done|].
  by apply load_items_stored.
Qed.

Lemma add_entry_stored now w ty old new h :
  Forall stored_record (m_entries h) →
  Forall stored_record (m_entries (add_entry now w ty old new h)).
Proof.
  intros Hall. apply Forall_forall.
  intros entry [Hin|[(Hty & Hold & Hnew & _) ->]]%elem_of_add_entry.
  - by eapply Forall_forall in Hall.
  - repeat split; simpl; try done; apply to_long_long_range.
Qed.

Lemma reachable_stored h : reachable h → Forall stored_record (m_entries h).
Proof.
  induction 1 as [disk|now w ty old new h _ IH].
  - apply load_stored.
  - by apply add_entry_stored.
Qed.

(** C10: a name [resolve] returns is not the name asked about, is not
    empty, and is the new name of a record of the queried type in the
    history. *)
Theorem resolve_returns_recorded_name h ty name s :
  reachable h →
  resolve h ty name = Some s →
  s ≠ name ∧ s ≠ ""
  ∧ ∃ entry, entry ∈ entries h ∧ type entry = ty ∧ new_name entry = s.
Proof.
  intros Hreach. unfold resolve.
  destruct (bool_decide (ty = TYPE_INVALID) || empty name); [done|].
  destruct (resolve_loop_hops kMaxResolveDepth (m_entries h) ty name false
              {[name]}) as (k & _ & Hhops & Hchanged).
  destruct (resolve_loop kMaxResolveDepth (m_entries h) ty name false {[name]})
    as [current changed]. simpl in *.
  destruct changed; simpl; [|done].
  case_bool_decide as Hsame; simpl; [done|]. intros [= <-].
  destruct Hchanged as [?|Hk]; [done|done|].
  destruct k as [|k]; [lia|].
  destruct (hops_last _ _ _ _ _ Hhops) as (entry & Hin & Hty & Hnew).
  split; [done|]. split; [|by exists entry].
  apply reachable_stored in Hreach.
  eapply Forall_forall in Hreach as [(_ & _ & Hne) _]; [|done]. congruence.
Qed.

Lemma resolve_returns_recorded_name_witness :
  let h := add_entry 3 Written TYPE_FILAMENT "PETG" "PETG HF" (instance FileAbsent) in
  "PETG HF" ≠ "PETG" ∧ "PETG HF" ≠ ""
  ∧ ∃ entry, entry ∈ entries h ∧ type entry = TYPE_FILAMENT
             ∧ new_name entry = "PETG HF".
Proof.
  intros h.
  apply (resolve_returns_recorded_name h TYPE_FILAMENT "PETG" "PETG HF").
  - apply reachable_add_entry, reachable_instance.
  - vm_compute. reflexivity.
Defined.

(** ** The hop limit *)

(** Along a chain of distinct names the loop advances one name a turn. *)
Lemma resolve_loop_chain n records ty before current rest changed visited s :
  is_chain records ty (current :: rest) →
  NoDup (before ++ current :: rest) →
  (∀ x, x ∈ visited ↔ x ∈ before ++ [current]) →
  (current :: rest) !! n = Some s →
  resolve_loop n records ty current changed visited
  = (s, if n is O then changed else true).
Proof.
  revert before current rest changed visited.
  induction n as [|n IH]; intros before current rest changed visited
    Hchain Hnodup Hvisited Hs.
  - injection Hs as <-. reflexivity.
  - destruct rest as [|next rest]; [done|].
    destruct Hchain as [Hhop Hchain]. simpl in Hhop.
    destruct (find_latest records ty current) as [it|] eqn:Hit; [|done].
    injection Hhop as Hnext.
    assert (next ∉ visited) as Hfresh.
    { rewrite Hvisited. intros Hin.
      apply NoDup_app in Hnodup as (_ & Hsep & Hrest).
      apply elem_of_app in Hin as [Hin|Hin].
      - apply (Hsep next Hin). set_solver.
      - apply list_elem_of_singleton in Hin as ->.
        apply NoDup_cons in Hrest as [Hrest _]. apply Hrest. set_solver. }
    erewrite resolve_loop_hop; [|done|by rewrite Hnext].
    rewrite Hnext.
    rewrite (IH (before ++ [current]) next rest true _); try done.
    + by destruct n.
    + by rewrite <- app_assoc.
    + intros x. rewrite elem_of_union, elem_of_singleton, Hvisited.
      rewrite !elem_of_app, !list_elem_of_singleton. tauto.
Qed.

Lemma is_chain_hops records ty n name rest s :
  is_chain records ty (name :: rest) →
  (name :: rest) !! n = Some s →
  hops records ty n name = Some s.
Proof.
  revert name rest. induction n as [|n IH]; intros name rest Hchain Hs.
  - by injection Hs as <-.
  - destruct rest as [|next rest]; [done|].
    destruct Hchain as [Hhop Hchain]. simpl in *.
    destruct (find_latest records ty name) as [it|]; [|done].
    injection Hhop as ->. by apply (IH _ rest).
Qed.

(** C5: whatever the history, [resolve] ends (it is a total function whose
    loop takes at most [kMaxResolveDepth] turns) and what it returns, when
    it returns a name, is reached from the input in at least one and at
    most 32 hops; in a history with a chain of distinct names longer than
    32 hops it returns the name 32 hops down the chain. *)
Theorem resolve_within_hop_limit :
  (∀ h ty name,
     resolve h ty name = None
     ∨ ∃ k s, (1 ≤ k ≤ kMaxResolveDepth)%nat
         ∧ hops (entries h) ty k name = Some s
         ∧ resolve h ty name = Some s)
  ∧ (∀ h ty names name,
       ty ≠ TYPE_INVALID →
       NoDup names →
       (kMaxResolveDepth + 1 < length names)%nat →
       is_chain (entries h) ty names →
       names !! 0%nat = Some name → name ≠ "" →
       ∃ s, names !! kMaxResolveDepth = Some s
            ∧ hops (entries h) ty kMaxResolveDepth name = Some s
            ∧ resolve h ty name = Some s).
Proof.
  split.
  - intros h ty name. unfold resolve.
    destruct (bool_decide (ty = TYPE_INVALID) || empty name); [by left|].
    destruct (resolve_loop_hops kMaxResolveDepth (m_entries h) ty name false
                {[name]}) as (k & Hle & Hhops & Hchanged).
    destruct (resolve_loop kMaxResolveDepth (m_entries h) ty name false {[name]})
      as [current changed]. simpl in *.
    destruct changed; simpl; [|by left].
    case_bool_decide; simpl; [by left|]. right.
    destruct Hchanged as [?|Hk]; [done|done|].
    exists k, current. by repeat split.
  - intros h ty names name Hty Hnodup Hlen Hchain Hname Hne.
    destruct names as [|first rest]; [done|]. injection Hname as ->.
    destruct (lookup_lt_is_Some_2 (name :: rest) kMaxResolveDepth) as [s Hs];
      [lia|].
    exists s. split; [done|].
    split; [by eapply is_chain_hops|].
    assert (s ≠ name) as Hsne.
    { intros ->. apply NoDup_cons in Hnodup as [Hnotin _]. apply Hnotin.
      change kMaxResolveDepth with (S 31) in Hs. simpl in Hs.
      by eapply list_elem_of_lookup_2. }
    rewrite (resolve_outcome h ty name s true); [by settle_decisions|done|done|].
    rewrite (resolve_loop_chain kMaxResolveDepth (entries h) ty [] name rest
               false {[name]} s Hchain Hnodup); [done|set_solver|done].
Qed.

Lemma resolve_within_hop_limit_witness :
  let h := add_chain TYPE_PRINTER forty_names (instance FileAbsent) in
  ∃ s, forty_names !! kMaxResolveDepth = Some s
       ∧ hops (entries h) TYPE_PRINTER kMaxResolveDepth "p" = Some s
       ∧ resolve h TYPE_PRINTER "p" = Some s.
Proof.
  intros h.
  apply (proj2 resolve_within_hop_limit h TYPE_PRINTER forty_names "p").
  - done.
  - apply (bool_decide_unpack (NoDup forty_names)). vm_compute. exact I.
  - vm_compute. lia.
  - vm_compute. repeat split.
  - reflexivity.
  - done.
Defined.

Example resolve_forty_names :
  resolve (add_chain TYPE_PRINTER forty_names (instance FileAbsent))
          TYPE_PRINTER "p"
  = Some (chain_name 32).
Proof. vm_compute. reflexivity. Qed.

(** ** Persistence *)

Lemma type_from_to_string ty :
  ty = TYPE_PRINTER ∨ ty = TYPE_FILAMENT →
  type_from_string (type_to_string ty) = ty.
Proof. by intros [-> | ->]. Qed.

Lemma value_type_entry_to_json entry :
  value_string (entry_to_json entry) "type" ""
  = Some (type_to_string (type entry)).
Proof. reflexivity. Qed.

Lemma value_old_entry_to_json entry :
  value_string (entry_to_json entry) "old" "" = Some (old_name entry).
Proof. reflexivity. Qed.

Lemma value_new_entry_to_json entry :
  value_string (entry_to_json entry) "new" "" = Some (new_name entry).
Proof. reflexivity. Qed.

Lemma value_timestamp_entry_to_json entry :
  value_long_long (entry_to_json entry) "timestamp" 0
  = Some (to_long_long (timestamp entry)).
Proof. reflexivity. Qed.

Lemma load_item_entry_to_json entry :
  well_formed_record entry →
  load_item (entry_to_json entry) = Some (Some entry).
Proof.
  intros (Hty & Hold & Hnew & Hts). unfold load_item.
  rewrite value_type_entry_to_json, value_old_entry_to_json,
    value_new_entry_to_json, value_timestamp_entry_to_json.
  cbn [is_object entry_to_json negb mbind option_bind type old_name new_name].
  rewrite type_from_to_string, to_long_long_id by done.
  rewrite !empty_false by done.
  rewrite bool_decide_eq_false_2 by (by destruct Hty as [-> | ->]).
  by destruct entry.
Qed.

Lemma load_items_entry_to_json records loaded :
  Forall well_formed_record records →
  load_items (map entry_to_json records) loaded = loaded ++ records.
Proof.
  intros Hall. revert loaded.
  induction Hall as [|entry records Hentry _ IH]; intros loaded; simpl.
  - by rewrite app_nil_r.
  - rewrite load_item_entry_to_json by done.
    rewrite IH. by rewrite <- app_assoc.
Qed.

Lemma load_save_written h :
  load (save Written h)
  = {| m_entries := load_items (map entry_to_json (m_entries h)) [];
       m_file := m_file (save Written h) |}.
Proof. reflexivity. Qed.

Example utf8_examples :
  utf8 "Generic PLA" = true
  ∧ utf8 (String (ascii_of_nat 195) (String (ascii_of_nat 169) EmptyString))
    = true
  ∧ utf8 (String (ascii_of_nat 195) EmptyString) = false
  ∧ utf8 not_utf8_name = false.
Proof. repeat split. Qed.

Lemma ends_written h :
  dump_raises (m_entries h) = false → ends Written h = Written.
Proof. intros Hdump. unfold ends. by rewrite Hdump. Qed.

Lemma instance_document records :
  entries (instance (FileJson (document_of records)))
  = load_items (map entry_to_json records) [].
Proof. reflexivity. Qed.

(** C7, as the code has it: for a history of well-formed records whose
    names are UTF-8, when the file system lets the write through, a
    history loaded from the file that [save] leaves has the records of the
    original, each with its type, names and timestamp, in the same
    order. *)
Theorem save_load_round_trip h :
  Forall well_formed_record (entries h) →
  dump_raises (entries h) = false →
  entries (instance (m_file (save (ends Written h) h))) = entries h.
Proof.
  intros Hall Hdump. rewrite ends_written by done.
  change (m_file (save Written h)) with (FileJson (document_of (m_entries h))).
  rewrite instance_document. by rewrite load_items_entry_to_json.
Qed.

Lemma save_load_round_trip_witness :
  let h := add_entry 1700000001 Written TYPE_FILAMENT "PLA" "PLA Basic"
             (add_entry 1700000000 Written TYPE_PRINTER "Mk3" "Mk3S"
                (instance FileAbsent)) in
  entries (instance (m_file (save (ends Written h) h))) = entries h.
Proof.
  intros h. apply (save_load_round_trip h).
  - assert (entries h =
            [{| type := TYPE_PRINTER; old_name := "Mk3"; new_name := "Mk3S";
                timestamp := 1700000000 |};
             {| type := TYPE_FILAMENT; old_name := "PLA";
                new_name := "PLA Basic"; timestamp := 1700000001 |}]) as ->
      by (by vm_compute).
    repeat apply Forall_cons_2; [| |apply Forall_nil_2];
      (split; [simpl; auto|]); (split; [done|]); (split; [done|]);
      unfold long_long_range; simpl; lia.
  - reflexivity.
Defined.

(** C7 as stated fails: a history the program can hold, whose one record
    is well-formed (a printer record, two non-empty names) with an old
    name that is not UTF-8.  Whatever the file system does, the [try]
    block of [save] does not end with the document written, and a history
    loaded from the file that is left is empty. *)
Lemma save_load_loses_name_not_utf8 :
  let h := add_entry 0 Truncated TYPE_PRINTER not_utf8_name "B"
             (instance FileAbsent) in
  reachable h
  ∧ Forall well_formed_record (entries h)
  ∧ ∀ io, ends io h ≠ Written
          ∧ entries (instance (m_file (save (ends io h) h))) = []
          ∧ entries (instance (m_file (save (ends io h) h))) ≠ entries h.
Proof.
  intros h. split; [apply reachable_add_entry, reachable_instance|].
  split.
  - apply Forall_singleton. split; [by left|].
    split; [done|]. split; [done|]. apply to_long_long_range.
  - intros io. by destruct io.
Qed.

(** ** The invariant of the records *)

(** [add_entry] constructs no record that breaks the invariant. *)
Lemma add_entry_record_invariant now w ty old new h :
  Forall record_invariant (m_entries h) →
  Forall record_invariant (m_entries (add_entry now w ty old new h)).
Proof.
  intros Hall. apply Forall_forall.
  intros entry [Hin|[Hvalid ->]]%elem_of_add_entry.
  - by eapply Forall_forall in Hall.
  - done.
Qed.

(** [load] drops an element with the invalid type or an empty name. *)
Lemma load_item_guard item entry :
  load_item item = Some (Some entry) → load_guard entry.
Proof. intros Hitem. by destruct (load_item_stored _ _ Hitem). Qed.

(** C1 fails on [load]: a persisted element with a valid type and the same
    non-empty old and new name passes the guard of [load], which lacks the
    comparison of the names that [add_entry] makes, and is stored; the
    history of the program then holds a record that breaks the invariant. *)
Theorem load_keeps_same_name_record :
  let h := instance (FileJson same_name_document) in
  reachable h
  ∧ entries h = [{| type := TYPE_PRINTER; old_name := "A"; new_name := "A";
                    timestamp := 0 |}]
  ∧ ¬ Forall record_invariant (entries h).
Proof.
  intros h. split; [apply reachable_instance|].
  split; [by vm_compute|].
  intros Hall. apply Forall_cons_1 in Hall as [(_ & _ & _ & Hne) _].
  by apply Hne.
Qed.

(** * Further properties of the history store *)

(** ** The type tokens *)

(** Encoding a type and decoding the token gives the type back for the
    printer and filament types and the invalid type for every other one;
    decoding a token and encoding the type gives the token back exactly
    for the three tokens [save] writes. *)
Theorem type_token_round_trips :
  (∀ ty, type_from_string (type_to_string ty)
         = if decide (printer_or_filament ty) then ty else TYPE_INVALID)
  ∧ (∀ s, type_to_string (type_from_string s) = s
          ↔ s = "printer" ∨ s = "filament" ∨ s = "unknown").
Proof.
  split.
  - intros ty. destruct ty; try reflexivity.
  - intros s. unfold type_from_string.
    case_bool_decide as Hp; [subst; simpl; split; by auto|].
    case_bool_decide as Hf; [subst; simpl; split; by auto|].
    simpl. split; [intros <-; auto|]. intros [?|[?|?]]; by subst.
Qed.

(** ** What load takes from a document *)

Lemma value_string_raises members key dflt :
  value_string (Jobject members) key dflt = None ↔ not_a_string members key.
Proof.
  unfold value_string, not_a_string.
  destruct (member key members) as [v|]; [|split; [done|by intros (v & ? & _)]].
  split.
  - intros Hv. exists v. split; [done|]. intros s ->. done.
  - intros (v' & [= <-] & Hv). destruct v; try done. by destruct (Hv s).
Qed.

Lemma value_long_long_raises members key dflt :
  value_long_long (Jobject members) key dflt = None ↔ not_a_number members key.
Proof.
  unfold value_long_long, not_a_number.
  destruct (member key members) as [v|]; [|split; [done|by intros (v & ? & _)]].
  split.
  - intros Hv. exists v. split; [done|]. by destruct v.
  - intros (v' & [= <-] & Hv). by destruct v.
Qed.

Lemma load_item_object_raises members :
  load_item (Jobject members) = None ↔
  not_a_string members "type" ∨ not_a_string members "old"
  ∨ not_a_string members "new" ∨ not_a_number members "timestamp".
Proof.
  unfold load_item. cbn [is_object negb].
  rewrite <- !(value_string_raises members _ ""),
    <- (value_long_long_raises members _ 0).
  destruct (value_string (Jobject members) "type" "") as [ty|];
    cbn [mbind option_bind]; [|by split; [left|]].
  destruct (value_string (Jobject members) "old" "") as [old|];
    cbn [mbind option_bind]; [|by split; [right; left|]].
  destruct (value_string (Jobject members) "new" "") as [new|];
    cbn [mbind option_bind]; [|by split; [right; right; left|]].
  destruct (value_long_long (Jobject members) "timestamp" 0) as [ts|];
    cbn [mbind option_bind]; [|by split; [right; right; right|]].
  split.
  - by destruct (_ || _).
  - intros [?|[?|[?|?]]]; done.
Qed.

(** [load] reaches the [catch] on an element exactly when the element is
    an object one of whose four members is there with a value of the wrong
    kind: a [type], [old] or [new] that is not a string, a [timestamp] that
    is neither a number, integer or floating-point, nor a boolean (with
    the conversion of [value_long_long], where a boolean is converted). *)
Theorem load_item_raises_iff item :
  load_item item = None ↔
  ∃ members, item = Jobject members
    ∧ (not_a_string members "type" ∨ not_a_string members "old"
       ∨ not_a_string members "new" ∨ not_a_number members "timestamp").
Proof.
  destruct item as [| | | | | |members];
    try (split; [done|by intros (? & ? & _)]).
  rewrite load_item_object_raises. split.
  - intros Hwrong. by exists members.
  - by intros (? & [= <-] & Hwrong).
Qed.

Lemma type_from_string_cases token :
  type_from_string token = TYPE_INVALID
  ∨ printer_or_filament (type_from_string token).
Proof.
  unfold type_from_string, printer_or_filament.
  repeat case_bool_decide; auto.
Qed.

Lemma value_string_member members key x :
  x ≠ "" →
  value_string (Jobject members) key "" = Some x
  ↔ member key members = Some (Jstring x).
Proof.
  intros Hx. unfold value_string.
  destruct (member key members) as [v|]; [|split; congruence].
  destruct v; split; congruence.
Qed.

Lemma value_long_long_member members key ts :
  value_long_long (Jobject members) key 0 = Some ts
  ↔ (member key members = None ∧ ts = 0)
    ∨ (∃ n, member key members = Some (Jnumber_integer n)
            ∧ ts = to_long_long n)
    ∨ (∃ x, member key members = Some (Jnumber_float x)
            ∧ ts = to_long_long x)
    ∨ (∃ b : bool, member key members = Some (Jboolean b)
            ∧ ts = if b then 1 else 0).
Proof.
  unfold value_long_long.
  destruct (member key members) as [v|].
  - destruct v; split; try done;
      try (intros [= <-]; by eauto 6);
      try (intros [[? _]|[(? & ? & _)|[(? & ? & _)|(? & ? & _)]]]; done);
      intros [[? _]|[(? & [= <-] & ->)|[(? & [= <-] & ->)|(? & [= <-] & ->)]]];
      done.
  - split.
    + intros [= <-]. by left.
    + intros [[_ ->]|[(? & ? & _)|[(? & ? & _)|(? & ? & _)]]]; done.
Qed.

(** [load] stores a record for an element exactly when the element is an
    object whose [type] is the token of the printer or the filament type,
    whose [old] and [new] are non-empty strings and whose [timestamp] is
    missing, a number or a boolean; the record has these values, its
    timestamp being 0 when missing, the integer cast to [long long], the
    cast of the floating-point number, or 0 or 1 for a boolean (with the
    conversion of [value_long_long]); other members of the element play no
    part. *)
Theorem load_item_loaded_iff item entry :
  load_item item = Some (Some entry) ↔
  ∃ members token, item = Jobject members
    ∧ member "type" members = Some (Jstring token)
    ∧ type_from_string token = type entry
    ∧ printer_or_filament (type entry)
    ∧ member "old" members = Some (Jstring (old_name entry))
    ∧ old_name entry ≠ ""
    ∧ member "new" members = Some (Jstring (new_name entry))
    ∧ new_name entry ≠ ""
    ∧ ((member "timestamp" members = None ∧ timestamp entry = 0)
       ∨ (∃ n, member "timestamp" members = Some (Jnumber_integer n)
               ∧ timestamp entry = to_long_long n)
       ∨ (∃ x, member "timestamp" members = Some (Jnumber_float x)
               ∧ timestamp entry = to_long_long x)
       ∨ (∃ b : bool, member "timestamp" members = Some (Jboolean b)
               ∧ timestamp entry = if b then 1 else 0)).
Proof.
  split.
  - destruct item as [| | | | | |members]; try done.
    unfold load_item. cbn [is_object negb].
    destruct (value_string (Jobject members) "type" "") as [token|] eqn:Htype;
      cbn [mbind option_bind]; [|done].
    destruct (value_string (Jobject members) "old" "") as [old|] eqn:Hold;
      cbn [mbind option_bind]; [|done].
    destruct (value_string (Jobject members) "new" "") as [new|] eqn:Hnew;
      cbn [mbind option_bind]; [|done].
    destruct (value_long_long (Jobject members) "timestamp" 0) as [ts|] eqn:Hts;
      cbn [mbind option_bind]; [|done].
    cbn [type old_name new_name]. unfold empty.
    case_bool_decide as Hty; [done|].
    case_bool_decide as Holdne; [done|].
    case_bool_decide as Hnewne; [done|].
    intros [= <-]. cbn [type old_name new_name timestamp].
    assert (token ≠ "") as Htoken by (by intros ->).
    exists members, token. split; [done|].
    split; [by apply value_string_member|]. split; [done|].
    split; [by destruct (type_from_string_cases token)|].
    split; [by apply value_string_member|]. split; [done|].
    split; [by apply value_string_member|]. split; [done|].
    by apply value_long_long_member.
  - intros (members & token & -> & Htype & Hty & Hpf & Hold & Holdne & Hnew
            & Hnewne & Hts).
    assert (type_from_string token ≠ TYPE_INVALID) as Hvalid
      by (rewrite Hty; by destruct Hpf as [-> | ->]).
    assert (token ≠ "") as Htoken by (by intros ->).
    unfold load_item. cbn [is_object negb].
    rewrite (proj2 (value_string_member members "type" token Htoken) Htype).
    rewrite (proj2 (value_string_member members "old" _ Holdne) Hold).
    rewrite (proj2 (value_string_member members "new" _ Hnewne) Hnew).
    rewrite (proj2 (value_long_long_member members "timestamp" _) Hts).
    cbn [mbind option_bind type old_name new_name]. unfold empty.
    rewrite !bool_decide_eq_false_2 by done. cbn [orb].
    do 2 f_equal. destruct entry. simpl in *. by subst.
Qed.

Lemma load_items_stop before item after records :
  load_item item = None →
  load_items (before ++ item :: after) records = load_items before records.
Proof.
  intros Hraise. revert records.
  induction before as [|first before IH]; intros records; simpl.
  - by rewrite Hraise.
  - by destruct (load_item first) as [[entry|]|].
Qed.

Lemma load_document items records :
  load {| m_entries := records;
          m_file := FileJson (Jobject [("entries", Jarray items)]) |}
  = {| m_entries := load_items items [];
       m_file := FileJson (Jobject [("entries", Jarray items)]) |}.
Proof. reflexivity. Qed.

(** An element that makes [load] reach the [catch] ends the loading: the
    records of the well-formed elements before it are kept, every element
    after it is lost, well-formed or not. *)
Theorem load_stops_at_raising_element good bad after :
  Forall well_formed_record good →
  load_item bad = None →
  entries (instance (FileJson (Jobject
             [("entries", Jarray (map entry_to_json good ++ bad :: after))])))
  = good.
Proof.
  intros Hgood Hbad. unfold instance, entries.
  rewrite load_document. simpl.
  rewrite load_items_stop by done.
  by rewrite load_items_entry_to_json.
Qed.

Lemma load_stops_at_raising_element_witness :
  let kept := {| type := TYPE_PRINTER; old_name := "A"; new_name := "B";
                 timestamp := 1 |} in
  let lost := {| type := TYPE_PRINTER; old_name := "C"; new_name := "D";
                 timestamp := 2 |} in
  let bad := Jobject [("type", Jstring "printer"); ("old", Jnumber_integer 5);
                      ("new", Jstring "E")] in
  entries (instance (FileJson (Jobject
             [("entries", Jarray (map entry_to_json [kept]
                                    ++ bad :: [entry_to_json lost]))])))
  = [kept].
Proof.
  intros kept lost bad.
  apply (load_stops_at_raising_element [kept] bad [entry_to_json lost]).
  - apply Forall_singleton. split; [by left|].
    split; [done|]. split; [done|]. unfold long_long_range. simpl. lia.
  - reflexivity.
Defined.

(** ** What survives a save and a load *)

Lemma load_item_well_formed item entry :
  load_item item = Some (Some entry) → well_formed_record entry.
Proof.
  intros Hitem.
  destruct (load_item_stored _ _ Hitem) as [(Hty & Hold & Hnew) Hts].
  split; [|done].
  revert Hitem Hty. unfold load_item. destruct (is_object item); simpl; [|done].
  destruct (value_string item "type" "") as [token|]; simpl; [|done].
  destruct (value_string item "old" "") as [old|]; simpl; [|done].
  destruct (value_string item "new" "") as [new|]; simpl; [|done].
  destruct (value_long_long item "timestamp" 0) as [ts|]; simpl; [|done].
  destruct (_ || _); [done|]. intros [= <-]. simpl.
  by destruct (type_from_string_cases token).
Qed.

Lemma load_items_well_formed items records :
  Forall well_formed_record records →
  Forall well_formed_record (load_items items records).
Proof.
  revert records. induction items as [|item items IH]; intros records Hall;
    simpl; [done|].
  destruct (load_item item) as [[entry|]|] eqn:Hitem; [|by apply IH|done].
  apply IH, Forall_app. split; [done|].
  apply Forall_singleton. by eapply load_item_well_formed.
Qed.

Lemma load_well_formed h : Forall well_formed_record (m_entries (load h)).
Proof.
  unfold load. destruct (m_file h); simpl; [done|done|].
  by apply load_items_well_formed.
Qed.

(** [load] builds the history from the file alone, whatever was in memory;
    whatever the file holds, the records it loads are printer and filament
    records with non-empty names; from the document [save] writes for
    well-formed records it loads those records; so a history that was
    loaded, saved with a write that goes through and loaded anew is the
    same. *)
Theorem loaded_history_is_well_formed h :
  load h = instance (m_file h)
  ∧ Forall well_formed_record (entries (load h))
  ∧ (∀ records, Forall well_formed_record records →
                m_file h = FileJson (document_of records) →
                entries (load h) = records)
  ∧ entries (instance (m_file (save Written (load h)))) = entries (load h).
Proof.
  assert (Forall well_formed_record (entries (load h))) as Hall
    by apply load_well_formed.
  split; [reflexivity|]. split; [done|]. split.
  - intros records Hrecords Hfile. unfold entries, load. rewrite Hfile.
    change (load_items (map entry_to_json records) [] = records).
    by rewrite load_items_entry_to_json.
  - change (m_file (save Written (load h)))
      with (FileJson (document_of (m_entries (load h)))).
    rewrite instance_document. by rewrite load_items_entry_to_json.
Qed.

Lemma loaded_history_is_well_formed_witness :
  let records := [{| type := TYPE_PRINTER; old_name := "Mk3";
                     new_name := "Mk3S"; timestamp := 5 |}] in
  let stale := [{| type := TYPE_FILAMENT; old_name := "PLA";
                   new_name := "PETG"; timestamp := 1 |}] in
  entries (load {| m_entries := stale;
                   m_file := FileJson (document_of records) |})
  = records.
Proof.
  intros records stale.
  apply (proj1 (proj2 (proj2 (loaded_history_is_well_formed
           {| m_entries := stale;
              m_file := FileJson (document_of records) |})))).
  - apply Forall_singleton. split; [by left|]. split; [done|].
    split; [done|]. unfold long_long_range. simpl. lia.
  - reflexivity.
Defined.

Lemma load_item_entry_to_json_stored entry :
  stored_record entry →
  load_item (entry_to_json entry)
  = Some (if decide (printer_or_filament (type entry)) then Some entry
          else None).
Proof.
  intros [(Hty & Hold & Hnew) Hts]. unfold load_item.
  rewrite value_type_entry_to_json, value_old_entry_to_json,
    value_new_entry_to_json, value_timestamp_entry_to_json.
  cbn [is_object entry_to_json negb mbind option_bind type old_name new_name].
  rewrite to_long_long_id by done. rewrite !empty_false by done.
  destruct entry as [ty old new ts]. simpl in *.
  destruct ty; try done; by destruct (decide _) as [[?|?]|?].
Qed.

Lemma load_items_entry_to_json_stored records loaded :
  Forall stored_record records →
  load_items (map entry_to_json records) loaded
  = loaded ++ filter (λ entry, printer_or_filament (type entry)) records.
Proof.
  intros Hall. revert loaded.
  induction Hall as [|entry records Hentry _ IH]; intros loaded; simpl.
  - by rewrite app_nil_r.
  - rewrite load_item_entry_to_json_stored by done. rewrite filter_cons.
    destruct (decide (printer_or_filament (type entry))); rewrite IH; [|done].
    by rewrite <- app_assoc.
Qed.

(** For every history of the program, a save that goes through followed by
    a load keeps the printer and filament records, in order, and drops the
    records of every other type, which [add_entry] accepts but [save]
    writes with a token that [load] does not know. *)
Theorem round_trip_keeps_printer_and_filament h :
  reachable h →
  entries (load (save Written h))
  = filter (λ entry, printer_or_filament (type entry)) (entries h).
Proof.
  intros Hreach%reachable_stored. rewrite load_save_written.
  unfold entries. simpl. by rewrite load_items_entry_to_json_stored.
Qed.

Lemma round_trip_keeps_printer_and_filament_witness :
  let h := add_entry 2 Written TYPE_FILAMENT "PLA" "PLA+"
             (add_entry 1 Written (TYPE_OTHER 1) "Fine" "Draft"
                (instance FileAbsent)) in
  entries (load (save Written h))
  = filter (λ entry, printer_or_filament (type entry)) (entries h).
Proof.
  intros h. apply (round_trip_keeps_printer_and_filament h).
  do 2 apply reachable_add_entry. apply reachable_instance.
Defined.

Lemma find_latest_filter records ty current
    (P : RenameHistoryEntry → Prop) `{!∀ entry, Decision (P entry)} :
  (∀ entry, type entry = ty → P entry) →
  find_latest (filter P records) ty current = find_latest records ty current.
Proof.
  intros Hkeep.
  induction records as [|entry records IH] using rev_ind; [done|].
  rewrite filter_app, filter_cons, filter_nil.
  destruct (decide (P entry)) as [Hp|Hp].
  - by rewrite !find_latest_snoc, IH.
  - rewrite app_nil_r, IH. rewrite find_latest_other_type; [done|].
    intros Hty. by apply Hp, Hkeep.
Qed.

Lemma m_file_add_entry_written now ty old new h :
  valid_rename ty old new →
  m_file (add_entry now Written ty old new h)
  = FileJson (document_of (m_entries (add_entry now Written ty old new h))).
Proof.
  intros Hv. rewrite m_entries_add_entry_valid by done.
  by rewrite add_entry_valid.
Qed.

(** After an [add_entry] whose write goes through, a new process, which
    loads the file, resolves every printer and filament name as the
    running one does. *)
Theorem restart_preserves_resolution now ty old new h ty' name :
  reachable h →
  valid_rename ty old new →
  printer_or_filament ty' →
  resolve (instance (m_file (add_entry now Written ty old new h))) ty' name
  = resolve (add_entry now Written ty old new h) ty' name.
Proof.
  intros Hreach Hv Hty'.
  assert (reachable (add_entry now Written ty old new h)) as Hstored
    by by apply reachable_add_entry.
  apply reachable_stored in Hstored.
  rewrite m_file_add_entry_written by done.
  apply resolve_ext. intros current. unfold instance, document_of.
  rewrite load_document. simpl.
  rewrite load_items_entry_to_json_stored by done. simpl.
  apply find_latest_filter. by intros entry ->.
Qed.

Lemma restart_preserves_resolution_witness :
  let h := add_entry 1 Written TYPE_PRINTER "A" "B" (instance FileAbsent) in
  resolve (instance (m_file (add_entry 2 Written TYPE_PRINTER "B" "C" h)))
          TYPE_PRINTER "A"
  = resolve (add_entry 2 Written TYPE_PRINTER "B" "C" h) TYPE_PRINTER "A".
Proof.
  intros h. apply (restart_preserves_resolution 2 TYPE_PRINTER "B" "C" h).
  - apply reachable_add_entry, reachable_instance.
  - by repeat split.
  - by left.
Defined.

(** ** What resolve depends on *)

Lemma find_latest_same_rename records1 records2 ty current :
  Forall2 same_rename records1 records2 →
  match find_latest records1 ty current, find_latest records2 ty current with
  | Some it1, Some it2 => new_name it1 = new_name it2
  | None, None => True
  | _, _ => False
  end.
Proof.
  intros Hsame. apply Forall2_reverse in Hsame. unfold find_latest.
  unfold reverse in Hsame. rewrite <- !rev_alt in Hsame.
  induction Hsame as [|e1 e2 l1 l2 (Hty & Hold & Hnew) _ IH]; simpl; [done|].
  assert (renames ty current e1 = renames ty current e2) as ->
    by (unfold renames; by rewrite Hty, Hold).
  by destruct (renames ty current e2).
Qed.

Lemma resolve_loop_same_rename n records1 records2 ty current changed visited :
  Forall2 same_rename records1 records2 →
  resolve_loop n records1 ty current changed visited
  = resolve_loop n records2 ty current changed visited.
Proof.
  intros Hsame. revert current changed visited.
  induction n as [|n IH]; intros current changed visited; simpl; [done|].
  pose proof (find_latest_same_rename _ _ ty current Hsame) as Hfind.
  destruct (find_latest records1 ty current) as [it1|],
    (find_latest records2 ty current) as [it2|]; try done.
  rewrite Hfind. by rewrite IH.
Qed.

(** [resolve] reads the types and names of the records, in their order,
    and nothing else: two histories that record the same renames resolve
    every name alike, whatever the timestamps and whatever the files. *)
Theorem resolve_depends_on_renames_only h1 h2 ty name :
  Forall2 same_rename (entries h1) (entries h2) →
  resolve h1 ty name = resolve h2 ty name.
Proof.
  intros Hsame. unfold resolve.
  by rewrite (resolve_loop_same_rename _ _ _ _ _ _ _ Hsame).
Qed.

Lemma resolve_depends_on_renames_only_witness :
  resolve (add_entry 2 Written TYPE_PRINTER "B" "C"
             (add_entry 1 Written TYPE_PRINTER "A" "B" (instance FileAbsent)))
          TYPE_PRINTER "A"
  = resolve (add_entry 1 NotWritten TYPE_PRINTER "B" "C"
               (add_entry 2 Truncated TYPE_PRINTER "A" "B"
                  (instance FileUnreadable)))
            TYPE_PRINTER "A".
Proof.
  apply resolve_depends_on_renames_only.
  vm_compute. repeat constructor.
Defined.

(** ** The history only grows *)

Lemma add_entry_prefix now w ty old new h :
  m_entries h `prefix_of` m_entries (add_entry now w ty old new h)
  ∧ (length (m_entries (add_entry now w ty old new h))
     ≤ S (length (m_entries h)))%nat.
Proof.
  destruct (decide (valid_rename ty old new)) as [Hv|Hv].
  - rewrite m_entries_add_entry_valid by done. split.
    + by apply prefix_app_r.
    + rewrite length_app. simpl. lia.
  - rewrite add_entry_invalid by done. split; [done|lia].
Qed.

(** Whatever calls of [add_entry] are made, valid or not, written or not,
    the records the history had stay where they were, in front of the new
    ones, and each call adds at most one record. *)
Theorem history_only_grows calls h :
  entries h `prefix_of` entries (add_entries calls h)
  ∧ (length (entries (add_entries calls h))
     ≤ length (entries h) + length calls)%nat.
Proof.
  unfold entries, add_entries. revert h.
  induction calls as [|c calls IH]; intros h; simpl.
  - split; [done|lia].
  - destruct (IH (add_entry (call_now c) (call_w c) (call_type c)
                    (call_old c) (call_new c) h)) as [Hpre Hlen].
    destruct (add_entry_prefix (call_now c) (call_w c) (call_type c)
                (call_old c) (call_new c) h) as [Hpre1 Hlen1].
    split; [by etrans|lia].
Qed.

(** ** Names resolve leaves alone *)

(** [resolve] reports no rename for the invalid type, for the empty name
    and for a name that no record of the type has as old name. *)
Theorem resolve_without_rename h ty name :
  ty = TYPE_INVALID ∨ name = ""
  ∨ (∀ entry, entry ∈ entries h → type entry = ty → old_name entry ≠ name) →
  resolve h ty name = None.
Proof.
  intros [Hty|[Hname|Hnone]]; [apply resolve_rejected; auto..|].
  unfold resolve. destruct (_ || _); [done|].
  rewrite resolve_loop_stop; [done|].
  apply find_latest_None, Forall_forall. intros entry Hin.
  destruct (renames ty name entry) eqn:Hrenames; [|done].
  apply renames_true in Hrenames as [Hety Hold]. by destruct (Hnone entry).
Qed.

Lemma resolve_without_rename_witness :
  resolve (add_entry 1 Written TYPE_PRINTER "A" "B" (instance FileAbsent))
          TYPE_FILAMENT "A" = None.
Proof.
  apply resolve_without_rename. right. right.
  intros entry Hin Hty. vm_compute in Hin.
  apply list_elem_of_singleton in Hin as ->. done.
Defined.

(** When the latest record for a name renames it to itself, [resolve]
    reports no rename for the name, whatever earlier records say. *)
Theorem self_rename_hides_earlier_renames h ty name it :
  find_latest (entries h) ty name = Some it →
  new_name it = name →
  resolve h ty name = None.
Proof.
  intros Hit Hself. unfold resolve. destruct (_ || _); [done|].
  change kMaxResolveDepth with (S 31).
  erewrite resolve_loop_revisit; [|done|set_solver]. done.
Qed.

Lemma self_rename_hides_earlier_renames_witness :
  let doc := Jobject [("entries", Jarray
               [Jobject [("type", Jstring "printer"); ("old", Jstring "A");
                         ("new", Jstring "B"); ("timestamp", Jnumber_integer 1)];
                Jobject [("type", Jstring "printer"); ("old", Jstring "A");
                         ("new", Jstring "A"); ("timestamp", Jnumber_integer 2)]])] in
  resolve (instance (FileJson doc)) TYPE_PRINTER "A" = None.
Proof.
  intros doc.
  apply (self_rename_hides_earlier_renames (instance (FileJson doc))
           TYPE_PRINTER "A"
           {| type := TYPE_PRINTER; old_name := "A"; new_name := "A";
              timestamp := 2 |}); reflexivity.
Defined.

(** ** Cycles and chains in general *)

(** From an empty history, A -> B, B -> C, C -> B (a valid type, three
    distinct non-empty names): [resolve] stops when it comes back to B, so
    A resolves to B, the name where the walk re-enters the cycle, and the
    two names of the cycle, B and C, resolve to nothing. *)
Theorem resolve_into_cycle now1 w1 now2 w2 now3 w3 ty (A B C : string) h :
  entries h = [] →
  ty ≠ TYPE_INVALID → A ≠ "" → B ≠ "" → C ≠ "" →
  A ≠ B → B ≠ C → A ≠ C →
  let h' := add_entry now3 w3 ty C B
              (add_entry now2 w2 ty B C (add_entry now1 w1 ty A B h)) in
  resolve h' ty A = Some B ∧ resolve h' ty B = None ∧ resolve h' ty C = None.
Proof.
  intros Hnil Hty HA HB HC HAB HBC HAC h'. unfold entries in Hnil.
  assert (m_entries h' =
          (([] ++ [{| type := ty; old_name := A; new_name := B;
                      timestamp := to_long_long now1 |}])
             ++ [{| type := ty; old_name := B; new_name := C;
                    timestamp := to_long_long now2 |}])
            ++ [{| type := ty; old_name := C; new_name := B;
                   timestamp := to_long_long now3 |}]) as Hentries.
  { unfold h'. rewrite !m_entries_add_entry_valid by (by repeat split).
    by rewrite Hnil. }
  assert (find_latest (m_entries h') ty A
          = Some {| type := ty; old_name := A; new_name := B;
                    timestamp := to_long_long now1 |}) as HfA.
  { rewrite Hentries. rewrite !find_latest_other_name by done.
    by apply find_latest_last. }
  assert (find_latest (m_entries h') ty B
          = Some {| type := ty; old_name := B; new_name := C;
                    timestamp := to_long_long now2 |}) as HfB.
  { rewrite Hentries. rewrite find_latest_other_name by done.
    by apply find_latest_last. }
  assert (find_latest (m_entries h') ty C
          = Some {| type := ty; old_name := C; new_name := B;
                    timestamp := to_long_long now3 |}) as HfC.
  { rewrite Hentries. by apply find_latest_last. }
  split; [|split].
  - rewrite (resolve_outcome _ _ _ B true); [by settle_decisions|done|done|].
    change kMaxResolveDepth with (S (S (S 29))).
    erewrite resolve_loop_hop; [|exact HfA|set_solver]. simpl new_name.
    erewrite resolve_loop_hop; [|exact HfB|set_solver]. simpl new_name.
    erewrite resolve_loop_revisit; [|exact HfC|set_solver]. done.
  - rewrite (resolve_outcome _ _ _ B true); [by settle_decisions|done|done|].
    change kMaxResolveDepth with (S (S 30)).
    erewrite resolve_loop_hop; [|exact HfB|set_solver]. simpl new_name.
    erewrite resolve_loop_revisit; [|exact HfC|set_solver]. done.
  - rewrite (resolve_outcome _ _ _ C true); [by settle_decisions|done|done|].
    change kMaxResolveDepth with (S (S 30)).
    erewrite resolve_loop_hop; [|exact HfC|set_solver]. simpl new_name.
    erewrite resolve_loop_revisit; [|exact HfB|set_solver]. done.
Qed.

Lemma resolve_into_cycle_witness :
  let h' := add_entry 3 Written TYPE_PRINTER "C" "B"
              (add_entry 2 Written TYPE_PRINTER "B" "C"
                 (add_entry 1 Written TYPE_PRINTER "A" "B"
                    (instance FileAbsent))) in
  resolve h' TYPE_PRINTER "A" = Some "B"
  ∧ resolve h' TYPE_PRINTER "B" = None ∧ resolve h' TYPE_PRINTER "C" = None.
Proof.
  apply (resolve_into_cycle 1 Written 2 Written 3 Written TYPE_PRINTER
           "A" "B" "C" (instance FileAbsent)); done.
Defined.

(** Along a chain of distinct names that ends on a name without a rename,
    the loop stops on that name if it has turns enough to reach it. *)
Lemma resolve_loop_chain_end n m records ty before current rest changed
    visited s :
  is_chain records ty (current :: rest) →
  NoDup (before ++ current :: rest) →
  (∀ x, x ∈ visited ↔ x ∈ before ++ [current]) →
  (current :: rest) !! n = Some s →
  find_latest records ty s = None →
  resolve_loop (n + m) records ty current changed visited
  = (s, if n is O then changed else true).
Proof.
  revert before current rest changed visited.
  induction n as [|n IH]; intros before current rest changed visited
    Hchain Hnodup Hvisited Hs Hend.
  - injection Hs as <-. by apply resolve_loop_stop.
  - destruct rest as [|next rest]; [done|].
    destruct Hchain as [Hhop Hchain]. simpl in Hhop.
    destruct (find_latest records ty current) as [it|] eqn:Hit; [|done].
    injection Hhop as Hnext.
    assert (next ∉ visited) as Hfresh.
    { rewrite Hvisited. intros Hin.
      apply NoDup_app in Hnodup as (_ & Hsep & Hrest).
      apply elem_of_app in Hin as [Hin|Hin].
      - apply (Hsep next Hin). set_solver.
      - apply list_elem_of_singleton in Hin as ->.
        apply NoDup_cons in Hrest as [Hrest _]. apply Hrest. set_solver. }
    change (S n + m)%nat with (S (n + m)).
    erewrite resolve_loop_hop; [|done|by rewrite Hnext].
    rewrite Hnext.
    rewrite (IH (before ++ [current]) next rest true _); try done.
    + by destruct n.
    + by rewrite <- app_assoc.
    + intros x. rewrite elem_of_union, elem_of_singleton, Hvisited.
      rewrite !elem_of_app, !list_elem_of_singleton. tauto.
Qed.

(** A chain of distinct names of at most 32 hops whose last name has no
    rename of the type resolves from its first name to its last one. *)
Theorem resolve_chain_to_its_end h ty names first final :
  ty ≠ TYPE_INVALID →
  NoDup names →
  is_chain (entries h) ty names →
  (2 ≤ length names ≤ kMaxResolveDepth + 1)%nat →
  names !! 0%nat = Some first → first ≠ "" →
  last names = Some final →
  find_latest (entries h) ty final = None →
  resolve h ty first = Some final.
Proof.
  intros Hty Hnodup Hchain Hlen Hfirst Hne Hfinal Hend.
  destruct names as [|first' rest]; [done|]. injection Hfirst as ->.
  rewrite last_lookup in Hfinal. simpl in Hfinal, Hlen.
  assert (final ≠ first) as Hdiff.
  { intros ->. apply NoDup_cons in Hnodup as [Hnotin _]. apply Hnotin.
    destruct rest as [|second rest]; [simpl in Hlen; lia|].
    simpl in Hfinal. by eapply list_elem_of_lookup_2. }
  rewrite (resolve_outcome h ty first final true);
    [by settle_decisions|done|done|].
  replace kMaxResolveDepth
    with (length rest + (kMaxResolveDepth - length rest))%nat
    by (unfold kMaxResolveDepth in *; lia).
  rewrite (resolve_loop_chain_end (length rest) _ (entries h) ty [] first rest
             false {[first]} final Hchain Hnodup); try done.
  - destruct rest; [simpl in Hlen; lia|done].
  - set_solver.
Qed.

Lemma resolve_chain_to_its_end_witness :
  resolve (add_chain TYPE_FILAMENT ["PLA"; "PLA+"; "PLA Pro"; "PLA Max"]
             (instance FileAbsent))
          TYPE_FILAMENT "PLA" = Some "PLA Max".
Proof.
  apply (resolve_chain_to_its_end _ TYPE_FILAMENT
           ["PLA"; "PLA+"; "PLA Pro"; "PLA Max"]).
  - done.
  - apply (bool_decide_unpack (NoDup _)). vm_compute. exact I.
  - vm_compute. repeat split.
  - vm_compute. lia.
  - reflexivity.
  - done.
  - reflexivity.
  - reflexivity.
Defined.

(** * The dialog that offers the renamed presets *)

Lemma selection_loop_zip n idx d selected :
  RenamedProfilesDialog.selection_loop n idx d selected
  = selected ++
    (filter (λ p, p.2 = true)
       (take n (drop idx (zip (RenamedProfilesDialog.m_options d)
                              (RenamedProfilesDialog.m_checkboxes d))))).*1.
Proof.
  revert idx selected. induction n as [|n IH]; intros idx selected; simpl.
  - by rewrite app_nil_r.
  - rewrite IH.
    destruct (zip (RenamedProfilesDialog.m_options d)
                  (RenamedProfilesDialog.m_checkboxes d) !! idx)
      as [[option box]|] eqn:Hpair.
    + rewrite (drop_S _ _ _ Hpair). simpl.
      rewrite lookup_zip_with in Hpair.
      destruct (RenamedProfilesDialog.m_options d !! idx) as [option'|];
        [|done]. simpl in Hpair.
      destruct (RenamedProfilesDialog.m_checkboxes d !! idx) as [box'|];
        [|done]. injection Hpair as -> ->.
      destruct box.
      * rewrite filter_cons_True by done. simpl. by rewrite <- app_assoc.
      * by rewrite filter_cons_False by done.
    + rewrite (drop_ge _ idx), (drop_ge _ (S idx));
        [|apply lookup_ge_None_1 in Hpair; lia|by apply lookup_ge_None_1].
      rewrite take_nil. simpl.
      rewrite lookup_zip_with in Hpair.
      destruct (RenamedProfilesDialog.m_checkboxes d !! idx) as [[]|],
        (RenamedProfilesDialog.m_options d !! idx) as [option'|]; try done.
Qed.

Lemma selection_zip d :
  RenamedProfilesDialog.selection d
  = (filter (λ p, p.2 = true)
       (zip (RenamedProfilesDialog.m_options d)
            (RenamedProfilesDialog.m_checkboxes d))).*1.
Proof.
  unfold RenamedProfilesDialog.selection. rewrite selection_loop_zip.
  rewrite drop_0, take_ge; [done|].
  rewrite length_zip_with. lia.
Qed.

Lemma fst_zip_sublist {A B} (l : list A) (k : list B) :
  (zip l k).*1 `sublist_of` l.
Proof.
  revert k. induction l as [|x l IH]; intros k; simpl; [done|].
  destruct k as [|y k]; simpl.
  - apply sublist_nil_l.
  - by apply sublist_skip.
Qed.

(** [selection] returns the options whose check box is ticked, in the
    order of the options: the list of options with some left out. *)
Theorem selection_is_ticked_options d :
  RenamedProfilesDialog.selection d
  = (filter (λ p, p.2 = true)
       (zip (RenamedProfilesDialog.m_options d)
            (RenamedProfilesDialog.m_checkboxes d))).*1
  ∧ RenamedProfilesDialog.selection d
    `sublist_of` RenamedProfilesDialog.m_options d.
Proof.
  split; [apply selection_zip|]. rewrite selection_zip.
  trans ((zip (RenamedProfilesDialog.m_options d)
               (RenamedProfilesDialog.m_checkboxes d)).*1).
  - apply fmap_sublist, sublist_filter.
  - apply fst_zip_sublist.
Qed.

Lemma create_checkboxes options :
  RenamedProfilesDialog.m_checkboxes (RenamedProfilesDialog.create options)
  = replicate (length options) true.
Proof.
  unfold RenamedProfilesDialog.create. simpl.
  assert (∀ boxes : list bool,
            foldl (λ checkboxes _, checkboxes ++ [true]) boxes options
            = boxes ++ replicate (length options) true) as Hfold.
  { induction options as [|option options IH]; intros boxes; simpl.
    - by rewrite app_nil_r.
    - rewrite IH. by rewrite <- app_assoc. }
  apply (Hfold []).
Qed.

Lemma ticked_all {A} (options : list A) :
  (filter (λ p, p.2 = true)
     (zip options (replicate (length options) true))).*1 = options.
Proof.
  induction options as [|option options IH]; [done|].
  cbn [length replicate zip_with].
  rewrite filter_cons_True by done. cbn [fmap list_fmap fst]. f_equal.
  apply IH.
Qed.

Lemma ticked_all_but {A} (options : list A) idx :
  (filter (λ p, p.2 = true)
     (zip options (<[idx := false]> (replicate (length options) true)))).*1
  = delete idx options.
Proof.
  revert idx. induction options as [|option options IH]; intros idx; [done|].
  destruct idx as [|idx]; cbn [length replicate zip_with insert list_insert delete list_delete].
  - rewrite filter_cons_False by (simpl; done). apply ticked_all.
  - rewrite filter_cons_True by done. cbn [fmap list_fmap fst]. f_equal.
    apply IH.
Qed.

(** Right after the dialog is built every option is selected; clearing
    the check box of one row leaves exactly the other options, in order. *)
Theorem selection_after_create options idx :
  RenamedProfilesDialog.selection (RenamedProfilesDialog.create options)
  = options
  ∧ RenamedProfilesDialog.selection
      (RenamedProfilesDialog.set_checkbox idx false
         (RenamedProfilesDialog.create options))
    = delete idx options.
Proof.
  split.
  - rewrite selection_zip, create_checkboxes. apply ticked_all.
  - rewrite selection_zip. unfold RenamedProfilesDialog.set_checkbox.
    cbn [RenamedProfilesDialog.m_options RenamedProfilesDialog.m_checkboxes].
    rewrite create_checkboxes. apply ticked_all_but.
Qed.

(** * The dialog that asks for the new name *)

(** ** Trimming *)

Lemma trim_left_front is_space s c :
  RenamePresetDialog.front (RenamePresetDialog.trim_left is_space s) = Some c →
  is_space c = false.
Proof.
  induction s as [|a s IH]; simpl; [done|].
  destruct (is_space a) eqn:Ha; [done|]. simpl. by intros [= <-].
Qed.

Lemma back_cons a s :
  s ≠ EmptyString →
  RenamePresetDialog.back (String a s) = RenamePresetDialog.back s.
Proof. by destruct s. Qed.

Lemma trim_right_back is_space s c :
  RenamePresetDialog.back (RenamePresetDialog.trim_right is_space s) = Some c →
  is_space c = false.
Proof.
  induction s as [|a s IH]; simpl; [done|].
  destruct (RenamePresetDialog.trim_right is_space s) as [|b rest] eqn:Hrest.
  - destruct (is_space a) eqn:Ha; simpl; [done|]. by intros [= <-].
  - rewrite andb_false_r. rewrite back_cons by done. apply IH.
Qed.

Lemma back_trim_left is_space s c :
  RenamePresetDialog.back (RenamePresetDialog.trim_left is_space s) = Some c →
  RenamePresetDialog.back s = Some c.
Proof.
  induction s as [|a s IH]; [done|].
  cbn [RenamePresetDialog.trim_left]. destruct (is_space a); [|done].
  intros Hback. destruct s as [|b s]; [done|].
  rewrite back_cons by done. by apply IH.
Qed.

Lemma trimmed_front is_space value c :
  RenamePresetDialog.front (RenamePresetDialog.trimmed is_space value) = Some c →
  is_space c = false.
Proof. apply trim_left_front. Qed.

Lemma trimmed_back is_space value c :
  RenamePresetDialog.back (RenamePresetDialog.trimmed is_space value) = Some c →
  is_space c = false.
Proof. intros Hback%back_trim_left. by eapply trim_right_back. Qed.

Lemma trim_left_id is_space s :
  (∀ c, RenamePresetDialog.front s = Some c → is_space c = false) →
  RenamePresetDialog.trim_left is_space s = s.
Proof.
  destruct s as [|a s]; [done|]. intros Hfront. simpl.
  by rewrite (Hfront a).
Qed.

Lemma trim_right_id is_space s :
  (∀ c, RenamePresetDialog.back s = Some c → is_space c = false) →
  RenamePresetDialog.trim_right is_space s = s.
Proof.
  induction s as [|a s IH]; [done|]. intros Hback. simpl.
  destruct s as [|b s].
  - simpl. by rewrite (Hback a).
  - rewrite IH; [by rewrite andb_false_r|].
    intros c Hc. apply Hback. by rewrite back_cons.
Qed.

Lemma trimmed_idem is_space value :
  RenamePresetDialog.trimmed is_space (RenamePresetDialog.trimmed is_space value)
  = RenamePresetDialog.trimmed is_space value.
Proof.
  unfold RenamePresetDialog.trimmed at 1.
  rewrite trim_right_id by apply trimmed_back.
  apply trim_left_id, trimmed_front.
Qed.

Lemma trim_right_blank is_space value :
  Forall (λ c, is_space c = true) (String.list_ascii_of_string value) →
  RenamePresetDialog.trim_right is_space value = "".
Proof.
  induction value as [|a value IH]; [done|]. simpl.
  intros [Ha Hall]%Forall_cons_1. by rewrite IH, Ha.
Qed.

(** ** Searching *)

Lemma find_first_of_none s chars pos :
  RenamePresetDialog.find_first_of s chars pos = None →
  ∀ c, In c (String.list_ascii_of_string s) → RenamePresetDialog.char_in c chars = false.
Proof.
  revert pos. induction s as [|a s IH]; intros pos; simpl; [done|].
  destruct (RenamePresetDialog.char_in a chars) eqn:Ha; [done|].
  intros Hnone c [<-|Hin]; [done|]. by eapply IH.
Qed.

Lemma starts_with_app sub post :
  RenamePresetDialog.starts_with sub (sub +:+ post) = true.
Proof.
  induction sub as [|a sub IH]; [done|]. simpl.
  by rewrite bool_decide_eq_true_2.
Qed.

Lemma find_none s sub pos :
  RenamePresetDialog.find s sub pos = None →
  ∀ pre post, s ≠ pre +:+ sub +:+ post.
Proof.
  revert pos. induction s as [|a s IH]; intros pos Hnone pre post Heq.
  - destruct pre; [|done].
    change ("" +:+ sub +:+ post) with (sub +:+ post) in Heq.
    destruct sub; [|done]. done.
  - cbn [RenamePresetDialog.find] in Hnone.
    destruct (RenamePresetDialog.starts_with sub (String a s)) eqn:Hstart;
      [done|].
    destruct pre as [|b pre].
    + change ("" +:+ sub +:+ post) with (sub +:+ post) in Heq.
      rewrite Heq, starts_with_app in Hstart. done.
    + change (String b pre +:+ sub +:+ post)
        with (String b (pre +:+ sub +:+ post)) in Heq.
      injection Heq as _ Heq. by eapply IH.
Qed.

(** ** The verdict of update_state *)

Lemma name_error_none suffix original name :
  RenamePresetDialog.name_error suffix original name = None →
  name ≠ "" ∧ name ≠ original
  ∧ RenamePresetDialog.find_first_of name RenamePresetDialog.illegal 0 = None
  ∧ (suffix ≠ "" → RenamePresetDialog.find name suffix 0 = None)
  ∧ name ∉ ["Default Setting"; "Default Filament"; "Default Printer"].
Proof.
  unfold RenamePresetDialog.name_error, empty.
  case_bool_decide as Hempty; [done|].
  case_bool_decide as Hsame; [done|].
  case_bool_decide as Hfront; [done|].
  case_bool_decide as Hback; [done|].
  case_bool_decide as Hillegal; [done|].
  case_bool_decide as Hsuffix; simpl.
  - destruct (_ || _) eqn:Hreserved; [done|]. intros _.
    apply orb_false_elim in Hreserved as [[H1 H2]%orb_false_elim H3].
    apply bool_decide_eq_false in H1, H2, H3.
    repeat split; try done. set_solver.
  - case_bool_decide as Hfind; [done|].
    destruct (_ || _) eqn:Hreserved; [done|]. intros _.
    apply orb_false_elim in Hreserved as [[H1 H2]%orb_false_elim H3].
    apply bool_decide_eq_false in H1, H2, H3.
    repeat split; try done. set_solver.
Qed.

Lemma update_state_enabled is_space suffix d name :
  name = RenamePresetDialog.trimmed is_space (RenamePresetDialog.input_value d) →
  RenamePresetDialog.ok_enabled
    (RenamePresetDialog.update_state is_space suffix d) = true →
  RenamePresetDialog.name_error suffix
    (RenamePresetDialog.m_original_name d) name = None
  ∧ ∀ c, RenamePresetDialog.m_collection d = Some c →
         RenamePresetDialog.find_preset c name ≠ Some name
         ∧ RenamePresetDialog.get_preset_name_by_alias c name = name.
Proof.
  intros Hname. unfold RenamePresetDialog.update_state.
  cbn [RenamePresetDialog.ok_enabled]. rewrite <- Hname.
  intros Henabled%bool_decide_eq_true.
  destruct (RenamePresetDialog.name_error suffix
              (RenamePresetDialog.m_original_name d) name) as [e|];
    [by destruct (RenamePresetDialog.m_collection d)|].
  split; [done|]. intros c Hc. rewrite Hc in Henabled. simpl in Henabled.
  destruct (RenamePresetDialog.find_preset c name) as [existing|] eqn:Hfound.
  - case_bool_decide as Hexisting; [done|].
    case_bool_decide as Halias; [done|]. split; [congruence|done].
  - case_bool_decide as Halias; [done|]. by split.
Qed.

(** A name the dialog lets through (the OK button is enabled) is the
    trimmed input and has passed every test: it is not empty, differs from
    the original name, has none of the illegal characters, does not
    contain the suffix of modified presets, is none of the three reserved
    names, and in the collection, when there is one, names no preset and
    is no alias of another name.  With a valid type and a non-empty
    original name it is a rename [add_entry] accepts. *)
Theorem accepted_name_is_checked is_space suffix d :
  let d' := RenamePresetDialog.update_state is_space suffix d in
  let name := RenamePresetDialog.new_name d' in
  RenamePresetDialog.ok_enabled d' = true →
  name = RenamePresetDialog.trimmed is_space (RenamePresetDialog.input_value d)
  ∧ name ≠ "" ∧ name ≠ RenamePresetDialog.m_original_name d
  ∧ (∀ c, In c (String.list_ascii_of_string name) →
          RenamePresetDialog.char_in c RenamePresetDialog.illegal = false)
  ∧ (suffix ≠ "" → ∀ pre post, name ≠ pre +:+ suffix +:+ post)
  ∧ (name ∉ ["Default Setting"; "Default Filament"; "Default Printer"])
  ∧ (∀ c, RenamePresetDialog.m_collection d = Some c →
          RenamePresetDialog.find_preset c name ≠ Some name
          ∧ RenamePresetDialog.get_preset_name_by_alias c name = name)
  ∧ (RenamePresetDialog.m_type d ≠ TYPE_INVALID →
     RenamePresetDialog.m_original_name d ≠ "" →
     valid_rename (RenamePresetDialog.m_type d')
       (RenamePresetDialog.m_original_name d') name).
Proof.
  intros d' name Henabled.
  destruct (update_state_enabled _ _ _ name eq_refl Henabled)
    as [Hname Hcollection].
  apply name_error_none in Hname
    as (Hne & Hdiff & Hillegal & Hsuffix & Hreserved).
  split; [done|]. split; [done|]. split; [done|].
  split; [by eapply find_first_of_none|].
  split; [intros Hs; by eapply find_none, Hsuffix|].
  split; [done|]. split; [done|].
  intros Hty Horiginal. repeat split; try done.
Qed.

Lemma accepted_name_is_checked_witness :
  let d := {| RenamePresetDialog.m_collection :=
                Some {| RenamePresetDialog.find_preset := λ _, None;
                        RenamePresetDialog.get_preset_name_by_alias := λ n, n |};
              RenamePresetDialog.m_type := TYPE_PRINTER;
              RenamePresetDialog.m_original_name := "Mk3";
              RenamePresetDialog.m_new_name := "Mk3";
              RenamePresetDialog.input_value := "  Mk3S ";
              RenamePresetDialog.ok_enabled := false;
              RenamePresetDialog.label :=
                Some RenamePresetDialog.EnterDifferentName |} in
  let d' := RenamePresetDialog.update_state RenamePresetDialog.classic_space
              " (modified)" d in
  RenamePresetDialog.new_name d' = "Mk3S"
  ∧ valid_rename (RenamePresetDialog.m_type d')
      (RenamePresetDialog.m_original_name d') (RenamePresetDialog.new_name d').
Proof.
  intros d d'.
  destruct (accepted_name_is_checked RenamePresetDialog.classic_space
              " (modified)" d eq_refl)
    as (Hname & _ & _ & _ & _ & _ & _ & Hvalid).
  split; [exact Hname|]. by apply Hvalid.
Defined.

Lemma name_error_not_space suffix original name :
  RenamePresetDialog.front name ≠ Some " "%char →
  RenamePresetDialog.back name ≠ Some " "%char →
  RenamePresetDialog.name_error suffix original name
    ≠ Some RenamePresetDialog.StartsWithSpace
  ∧ RenamePresetDialog.name_error suffix original name
    ≠ Some RenamePresetDialog.EndsWithSpace.
Proof.
  intros Hfront Hback. unfold RenamePresetDialog.name_error.
  destruct (empty name); [done|].
  destruct (bool_decide (name = original)); [done|].
  rewrite (bool_decide_eq_false_2 (RenamePresetDialog.front name = _)) by done.
  rewrite (bool_decide_eq_false_2 (RenamePresetDialog.back name = _)) by done.
  destruct (bool_decide (RenamePresetDialog.find_first_of _ _ _ ≠ None));
    [done|].
  destruct (_ && _); [done|]. by destruct (_ || _).
Qed.

Lemma update_state_label is_space suffix d m :
  RenamePresetDialog.label (RenamePresetDialog.update_state is_space suffix d)
  = Some m →
  RenamePresetDialog.name_error suffix (RenamePresetDialog.m_original_name d)
    (RenamePresetDialog.trimmed is_space (RenamePresetDialog.input_value d))
  = Some m
  ∨ (∃ name, m = RenamePresetDialog.PresetExists name)
  ∨ m = RenamePresetDialog.SameAsAlias.
Proof.
  unfold RenamePresetDialog.update_state. cbn [RenamePresetDialog.label].
  destruct (RenamePresetDialog.name_error _ _ _) as [e|].
  - destruct (RenamePresetDialog.m_collection d); auto.
  - destruct (RenamePresetDialog.m_collection d) as [c|]; simpl; [|done].
    destruct (RenamePresetDialog.find_preset c _) as [existing|].
    + case_bool_decide; [intros [= <-]; eauto|].
      case_bool_decide; [intros [= <-]; auto|done].
    + case_bool_decide; [intros [= <-]; auto|done].
Qed.

(** The two messages about a space at the start or at the end of the name
    are never set: the name tested has been trimmed, and the space is one
    of the characters trimming removes. *)
Theorem space_messages_never_set is_space suffix d :
  is_space " "%char = true →
  RenamePresetDialog.label (RenamePresetDialog.update_state is_space suffix d)
    ≠ Some RenamePresetDialog.StartsWithSpace
  ∧ RenamePresetDialog.label (RenamePresetDialog.update_state is_space suffix d)
    ≠ Some RenamePresetDialog.EndsWithSpace.
Proof.
  intros Hspace.
  destruct (name_error_not_space suffix (RenamePresetDialog.m_original_name d)
              (RenamePresetDialog.trimmed is_space
                 (RenamePresetDialog.input_value d))) as [Hstart Hend].
  - intros Hfront%trimmed_front. congruence.
  - intros Hback%trimmed_back. congruence.
  - split; intros [Herr|[[name Hm]|Hm]]%update_state_label; done.
Qed.

Lemma space_messages_never_set_witness :
  let d := RenamePresetDialog.create RenamePresetDialog.classic_space
             " (modified)" None TYPE_FILAMENT "PLA" in
  let d' := RenamePresetDialog.on_text RenamePresetDialog.classic_space
              " (modified)" " PLA+ " d in
  RenamePresetDialog.label d' ≠ Some RenamePresetDialog.StartsWithSpace
  ∧ RenamePresetDialog.label d' ≠ Some RenamePresetDialog.EndsWithSpace.
Proof.
  intros d d'.
  apply (space_messages_never_set RenamePresetDialog.classic_space).
  reflexivity.
Defined.



(** An input made of space characters only, the empty input included, is
    refused as an empty name, whatever the collection holds. *)
Theorem blank_input_is_empty_name is_space suffix text d :
  Forall (λ c, is_space c = true) (String.list_ascii_of_string text) →
  let d' := RenamePresetDialog.on_text is_space suffix text d in
  RenamePresetDialog.new_name d' = ""
  ∧ RenamePresetDialog.ok_enabled d' = false
  ∧ RenamePresetDialog.label d' = Some RenamePresetDialog.NameEmpty.
Proof.
  intros Hblank d'. unfold d', RenamePresetDialog.on_text,
    RenamePresetDialog.update_state, RenamePresetDialog.new_name,
    RenamePresetDialog.trimmed.
  cbn [RenamePresetDialog.ok_enabled RenamePresetDialog.m_new_name
       RenamePresetDialog.label RenamePresetDialog.input_value
       RenamePresetDialog.m_original_name RenamePresetDialog.m_collection].
  rewrite trim_right_blank by done.
  by destruct (RenamePresetDialog.m_collection d).
Qed.

Lemma blank_input_is_empty_name_witness :
  let d := RenamePresetDialog.create RenamePresetDialog.classic_space
             " (modified)" None TYPE_FILAMENT "PLA" in
  let d' := RenamePresetDialog.on_text RenamePresetDialog.classic_space
              " (modified)" "   " d in
  RenamePresetDialog.new_name d' = ""
  ∧ RenamePresetDialog.ok_enabled d' = false
  ∧ RenamePresetDialog.label d' = Some RenamePresetDialog.NameEmpty.
Proof.
  intros d.
  apply (blank_input_is_empty_name RenamePresetDialog.classic_space
           " (modified)" "   " d).
  repeat constructor.
Defined.

(** The space characters around the input play no part: the name kept,
    the state of the OK button and the message are those of the trimmed
    input. *)
Theorem verdict_depends_on_trimmed_input is_space suffix text d :
  let d1 := RenamePresetDialog.on_text is_space suffix text d in
  let d2 := RenamePresetDialog.on_text is_space suffix
              (RenamePresetDialog.trimmed is_space text) d in
  RenamePresetDialog.new_name d1 = RenamePresetDialog.new_name d2
  ∧ RenamePresetDialog.ok_enabled d1 = RenamePresetDialog.ok_enabled d2
  ∧ RenamePresetDialog.label d1 = RenamePresetDialog.label d2.
Proof.
  intros d1 d2. unfold d1, d2, RenamePresetDialog.on_text,
    RenamePresetDialog.update_state, RenamePresetDialog.new_name.
  cbn [RenamePresetDialog.ok_enabled RenamePresetDialog.m_new_name
       RenamePresetDialog.label RenamePresetDialog.input_value
       RenamePresetDialog.m_original_name RenamePresetDialog.m_collection].
  by rewrite trimmed_idem.
Qed.
